(** * HudInterface: freshness and display-mode core of the dashboard

    A shallow embedding of [src/App.tsx] (component [HudInterface]): the
    state slots declared with [useState], the asynchronous handlers
    [fetchWeather], [fetchNews] and [handleSearch], the feed pane of the
    render function, and the effects that own timers and battery listeners.

    JavaScript strings are sequences of UTF-16 code units; [split] and [trim]
    are modelled on that representation.  Asynchronous handlers are written
    as resumptions ([Prog]) whose suspended continuations sit in the task
    list of a [World] until an event settles them. *)

From Stdlib Require Import List NArith ZArith QArith Bool String Ascii Lia.
Import ListNotations.
Close Scope Q_scope.

Set Implicit Arguments.

(* ================================================================= *)
(** ** JavaScript strings *)

Module JsString.

(** A string value: its UTF-16 code units. *)
Definition jsstr := list N.

(** An ASCII literal of the source, as code units. *)
Definition lit (s : string) : jsstr := map N_of_ascii (list_ascii_of_string s).
Arguments lit s%_string.

Definition jsstr_eqb (a b : jsstr) : bool :=
  if list_eq_dec N.eq_dec a b then true else false.

(** ToBoolean on a string: only the empty string is falsy. *)
Definition truthy (s : jsstr) : bool :=
  match s with [] => false | _ :: _ => true end.

(** ToBoolean on [string | undefined]. *)
Definition truthy_opt (s : option jsstr) : bool :=
  match s with Some t => truthy t | None => false end.

(** WhiteSpace and LineTerminator code points, the ones [trim] strips:
    TAB, LF, VT, FF, CR, SP, NBSP, U+1680, U+2000..U+200A, U+2028, U+2029,
    U+202F, U+205F, U+3000, U+FEFF. *)
Definition is_white_space (c : N) : bool :=
  ((9 <=? c) && (c <=? 13) || (c =? 32) || (c =? 160) || (c =? 5760)
   || (8192 <=? c) && (c <=? 8202) || (c =? 8232) || (c =? 8233)
   || (c =? 8239) || (c =? 8287) || (c =? 12288) || (c =? 65279))%N.

Fixpoint trimStart (s : jsstr) : jsstr :=
  match s with
  | [] => []
  | c :: s' => if is_white_space c then trimStart s' else s
  end.

Definition trimEnd (s : jsstr) : jsstr := rev (trimStart (rev s)).

(** [String.prototype.trim]. *)
Definition trim (s : jsstr) : jsstr := trimEnd (trimStart s).

(** [String.prototype.split] with a separator of one code unit.  The result
    is never empty: the empty string splits into one empty piece. *)
Fixpoint split (sep : N) (s : jsstr) : list jsstr :=
  match s with
  | [] => [[]]
  | c :: s' =>
      if (c =? sep)%N then [] :: split sep s'
      else match split sep s' with
           | [] => [[c]]
           | p :: ps => (c :: p) :: ps
           end
  end.

(** [Array.prototype.join] with a separator of one code unit. *)
Fixpoint join (sep : N) (l : list jsstr) : jsstr :=
  match l with
  | [] => []
  | [p] => p
  | p :: ps => p ++ sep :: join sep ps
  end.

(** [Array.prototype.slice(0, n)]. *)
Definition slice0 {A} (n : nat) (l : list A) : list A := firstn n l.

Definition pipe : N := 124.     (* '|' *)
Definition newline : N := 10.   (* '\n' *)
Definition dquote : N := 34.
Definition degree : N := 176.   (* U+00B0 *)

(** A string is blank when every code unit is white space. *)
Definition blank (s : jsstr) : Prop := Forall (fun c => is_white_space c = true) s.

End JsString.
Import JsString.

(* ================================================================= *)
(** ** State slots of [HudInterface] *)

Record Battery := mkBattery { level : Q; charging : bool }.

Record Weather := mkWeather { temp : jsstr; condition : jsstr; location : jsstr }.

(** An element of [groundingUrls].  The slot is declared
    [{title: string, uri: string}[]], but its elements are copied from values
    of type [any]; a property that is absent there is [undefined] here. *)
Record Citation := mkCitation { title : option jsstr; uri : option jsstr }.

Record Track := mkTrack { track_title : jsstr; artist : jsstr; duration : jsstr }.

Definition PLAYLIST : list Track :=
  [ mkTrack (lit "Night City Dreams") (lit "Artemis Prime") (lit "03:45");
    mkTrack (lit "Neon Rain") (lit "Synth Walker") (lit "04:20");
    mkTrack (lit "Cyber Heart") (lit "Data Ghost") (lit "02:55");
    mkTrack (lit "Mainframe Breach") (lit "Null Pointer") (lit "03:10") ].

(** The [useState] slots.  [time] is a timestamp in milliseconds;
    [searchResult] is [string | null], and [None] also stands for the
    [undefined] that [setSearchResult(response.text)] may store (both are
    falsy and neither is rendered).  A slot holds what its setter was last
    called with; a call made after deactivation is recorded like any other,
    so that a write after teardown shows. *)
Record Hud := mkHud {
  time : Z;
  battery : Battery;
  weather : Weather;
  isPlaying : bool;
  currentTrackIndex : nat;
  trackProgress : nat;
  searchQuery : jsstr;
  searchResult : option jsstr;
  groundingUrls : list Citation;
  isSearching : bool;
  newsHeadlines : list jsstr
}.

Definition initialHud (now : Z) : Hud :=
  {| time := now;
     battery := {| level := 100%Q; charging := true |};
     weather := {| temp := lit "--"; condition := lit "SCANNING...";
                   location := lit "UNKNOWN SECTOR" |};
     isPlaying := false;
     currentTrackIndex := 0;
     trackProgress := 0;
     searchQuery := [];
     searchResult := None;
     groundingUrls := [];
     isSearching := false;
     newsHeadlines := [] |}.

(** The state setters.  Each takes an updater, as [setX(prev => ...)] does;
    [setX(v)] is [setX (fun _ => v)]. *)
Definition setTime (f : Z -> Z) (h : Hud) : Hud :=
  mkHud (f (time h)) (battery h) (weather h) (isPlaying h) (currentTrackIndex h)
        (trackProgress h) (searchQuery h) (searchResult h) (groundingUrls h)
        (isSearching h) (newsHeadlines h).
Definition setBattery (f : Battery -> Battery) (h : Hud) : Hud :=
  mkHud (time h) (f (battery h)) (weather h) (isPlaying h) (currentTrackIndex h)
        (trackProgress h) (searchQuery h) (searchResult h) (groundingUrls h)
        (isSearching h) (newsHeadlines h).
Definition setWeather (f : Weather -> Weather) (h : Hud) : Hud :=
  mkHud (time h) (battery h) (f (weather h)) (isPlaying h) (currentTrackIndex h)
        (trackProgress h) (searchQuery h) (searchResult h) (groundingUrls h)
        (isSearching h) (newsHeadlines h).
Definition setIsPlaying (f : bool -> bool) (h : Hud) : Hud :=
  mkHud (time h) (battery h) (weather h) (f (isPlaying h)) (currentTrackIndex h)
        (trackProgress h) (searchQuery h) (searchResult h) (groundingUrls h)
        (isSearching h) (newsHeadlines h).
Definition setCurrentTrackIndex (f : nat -> nat) (h : Hud) : Hud :=
  mkHud (time h) (battery h) (weather h) (isPlaying h) (f (currentTrackIndex h))
        (trackProgress h) (searchQuery h) (searchResult h) (groundingUrls h)
        (isSearching h) (newsHeadlines h).
Definition setTrackProgress (f : nat -> nat) (h : Hud) : Hud :=
  mkHud (time h) (battery h) (weather h) (isPlaying h) (currentTrackIndex h)
        (f (trackProgress h)) (searchQuery h) (searchResult h) (groundingUrls h)
        (isSearching h) (newsHeadlines h).
Definition setSearchQuery (f : jsstr -> jsstr) (h : Hud) : Hud :=
  mkHud (time h) (battery h) (weather h) (isPlaying h) (currentTrackIndex h)
        (trackProgress h) (f (searchQuery h)) (searchResult h) (groundingUrls h)
        (isSearching h) (newsHeadlines h).
Definition setSearchResult (f : option jsstr -> option jsstr) (h : Hud) : Hud :=
  mkHud (time h) (battery h) (weather h) (isPlaying h) (currentTrackIndex h)
        (trackProgress h) (searchQuery h) (f (searchResult h)) (groundingUrls h)
        (isSearching h) (newsHeadlines h).
Definition setGroundingUrls (f : list Citation -> list Citation) (h : Hud) : Hud :=
  mkHud (time h) (battery h) (weather h) (isPlaying h) (currentTrackIndex h)
        (trackProgress h) (searchQuery h) (searchResult h) (f (groundingUrls h))
        (isSearching h) (newsHeadlines h).
Definition setIsSearching (f : bool -> bool) (h : Hud) : Hud :=
  mkHud (time h) (battery h) (weather h) (isPlaying h) (currentTrackIndex h)
        (trackProgress h) (searchQuery h) (searchResult h) (groundingUrls h)
        (f (isSearching h)) (newsHeadlines h).
Definition setNewsHeadlines (f : list jsstr -> list jsstr) (h : Hud) : Hud :=
  mkHud (time h) (battery h) (weather h) (isPlaying h) (currentTrackIndex h)
        (trackProgress h) (searchQuery h) (searchResult h) (groundingUrls h)
        (isSearching h) (f (newsHeadlines h)).

(** [setX(v)]: store a value. *)
Definition put {A} (v : A) : A -> A := fun _ => v.

(* ================================================================= *)
(** ** External collaborators *)

(** Capabilities found on [navigator]. *)
Record Navigator := mkNavigator { has_getBattery : bool; has_geolocation : bool }.

(** [position.coords].  The coordinates are numbers that the handler only
    interpolates into a template literal; they are carried in that decimal
    form. *)
Record Coords := mkCoords { latitude : jsstr; longitude : jsstr }.

(** Failure codes of [getCurrentPosition]. *)
Inductive PositionError := PERMISSION_DENIED | POSITION_UNAVAILABLE | TIMEOUT.

(** Argument of [ai.models.generateContent]. *)
Record Request := mkRequest { model : jsstr; contents : jsstr; googleSearch : bool }.

(** [chunk.web] of a grounding chunk; both properties are optional. *)
Record ChunkWeb := mkChunkWeb { web_title : option jsstr; web_uri : option jsstr }.

(** A grounding chunk: [web] is absent on chunks of another kind. *)
Record Chunk := mkChunk { web : option ChunkWeb }.

(** What the handlers read of a response: [response.text] and
    [response.candidates?.[0]?.groundingMetadata?.groundingChunks]. *)
Record Response := mkResponse {
  text : option jsstr;
  groundingChunks : option (list Chunk)
}.

(** How a [generateContent] call settles. *)
Inductive Outcome := Fulfilled (response : Response) | ServiceError.

(** The battery manager object: the fields [updateBattery] reads. *)
Record BatteryManager := mkBatteryManager { bat_level : Q; bat_charging : bool }.

Inductive BatteryEventType := levelchange | chargingchange.

Definition BatteryEventType_eqb (a b : BatteryEventType) : bool :=
  match a, b with
  | levelchange, levelchange | chargingchange, chargingchange => true
  | _, _ => false
  end.

(* ================================================================= *)
(** ** Asynchronous handlers as resumptions *)

(** A handler body: state updates, then either the end of the body or a
    suspension on an external operation together with what runs when that
    operation settles. *)
Inductive Prog : Type :=
| Done
| Update (f : Hud -> Hud) (k : Prog)
| GetCurrentPosition (success : Coords -> Prog) (error : PositionError -> Prog)
| GenerateContent (req : Request) (fulfilled : Response -> Prog) (rejected : Prog).

Declare Scope prog_scope.
Delimit Scope prog_scope with prog.
Bind Scope prog_scope with Prog.
Notation "f ;; k" := (Update f k) (at level 61, right associativity) : prog_scope.

Definition gemini : jsstr := lit "gemini-2.5-flash".

(* ----------------------------------------------------------------- *)
(** *** [fetchWeather] *)

Definition weatherPrompt (c : Coords) : jsstr :=
  lit "What is the current weather at latitude " ++ latitude c
  ++ lit ", longitude " ++ longitude c
  ++ lit "? Return a string strictly in this format: "
  ++ [dquote] ++ lit "LocationName | Temperature | Condition" ++ [dquote]
  ++ lit ". Example: "
  ++ [dquote] ++ lit "Tokyo | 15" ++ [degree] ++ lit "C | Rainy" ++ [dquote]
  ++ lit ". Keep it brief.".

(** The body of the [try] block after the [await]. *)
Definition fetchWeather_then (response : Response) : Prog :=
  match text response with
  | Some t =>
      if truthy t then
        let parts := map trim (split pipe t) in
        if (3 <=? List.length parts)%nat then
          (setWeather (put {| location := nth 0 parts [];
                              temp := nth 1 parts [];
                              condition := nth 2 parts [] |}) ;; Done)%prog
        else
          (setWeather (fun prev => {| temp := temp prev;
                                      condition := lit "DATA RECEIVED";
                                      location := lit "LOCAL" |}) ;; Done)%prog
      else Done
  | None => Done
  end.

(** The [catch] block. *)
Definition fetchWeather_catch : Prog :=
  (setWeather (put {| temp := lit "ERR"; condition := lit "OFFLINE";
                      location := lit "UNKNOWN" |}) ;; Done)%prog.

(** Success callback of [getCurrentPosition].  The client is constructed
    inside the [try], before the request; its construction is taken to
    succeed (were it to throw, the same [catch] would run without a
    request). *)
Definition fetchWeather_position (position : Coords) : Prog :=
  GenerateContent
    {| model := gemini; contents := weatherPrompt position; googleSearch := true |}
    fetchWeather_then
    fetchWeather_catch.

(** Error callback of [getCurrentPosition]. *)
Definition fetchWeather_error (err : PositionError) : Prog :=
  (setWeather (put {| temp := lit "--"; condition := lit "NO SIGNAL";
                      location := lit "GPS ERROR" |}) ;; Done)%prog.

Definition fetchWeather (nav : Navigator) : Prog :=
  if negb (has_geolocation nav) then Done
  else GetCurrentPosition fetchWeather_position fetchWeather_error.

(* ----------------------------------------------------------------- *)
(** *** [fetchNews] *)

Definition newsPrompt : jsstr :=
  lit "Generate 3 short, punchy, cyberpunk-style futuristic news headlines based on real current technology trends. Return them as a plain text list separated by newlines. Do not include numbers or bullet points.".

Definition newsFallback : list jsstr :=
  [ lit "NETWORK ERROR: UNABLE TO SYNC WITH WORLD DATA.";
    lit "LOCAL CACHE LOADED.";
    lit "SYSTEM DIAGNOSTICS RECOMMENDED." ].

Definition fetchNews_then (response : Response) : Prog :=
  match text response with
  | Some t =>
      if truthy t then
        (setNewsHeadlines
           (put (slice0 3 (filter (fun line => negb (jsstr_eqb (trim line) []))
                                  (split newline t)))) ;; Done)%prog
      else Done
  | None => Done
  end.

Definition fetchNews_catch : Prog :=
  (setNewsHeadlines (put newsFallback) ;; Done)%prog.

(** As in [fetchWeather], the construction of the client is taken to
    succeed. *)
Definition fetchNews : Prog :=
  GenerateContent
    {| model := gemini; contents := newsPrompt; googleSearch := false |}
    fetchNews_then
    fetchNews_catch.

(* ----------------------------------------------------------------- *)
(** *** [handleSearch] *)

Definition connectionInterrupted : jsstr :=
  lit "CONNECTION INTERRUPTED. TARGET NOT FOUND.".

(** [chunks.map(c => c.web).filter(w => w).map(w => ({title: w.title, uri: w.uri}))].
    An object is truthy, [undefined] is not.  The last [map] only meets
    values that passed the filter; its [None] case is never reached. *)
Definition extractUrls (chunks : list Chunk) : list Citation :=
  map (fun w : option ChunkWeb =>
         match w with
         | Some w => {| title := web_title w; uri := web_uri w |}
         | None => {| title := None; uri := None |}
         end)
      (filter (fun w : option ChunkWeb => match w with Some _ => true | None => false end)
              (map web chunks)).

(** The [finally] block. *)
Definition handleSearch_finally : Prog :=
  (setIsSearching (put false) ;; Done)%prog.

Definition handleSearch_then (response : Response) : Prog :=
  (setSearchResult (put (text response)) ;;
   match groundingChunks response with
   | Some chunks => setGroundingUrls (put (extractUrls chunks)) ;; handleSearch_finally
   | None => handleSearch_finally
   end)%prog.

Definition handleSearch_catch : Prog :=
  (setSearchResult (put (Some connectionInterrupted)) ;; handleSearch_finally)%prog.

(** [h] is the state the handler closes over: it reads [searchQuery].  The
    construction of the client is taken to succeed. *)
Definition handleSearch (key : jsstr) (h : Hud) : Prog :=
  if jsstr_eqb key (lit "Enter") && truthy (trim (searchQuery h)) then
    (setIsSearching (put true) ;;
     setSearchResult (put None) ;;
     setGroundingUrls (put []) ;;
     GenerateContent
       {| model := gemini; contents := searchQuery h; googleSearch := true |}
       handleSearch_then
       handleSearch_catch)%prog
  else Done.

(* ----------------------------------------------------------------- *)
(** *** Synchronous handlers *)

Definition togglePlay (h : Hud) : Hud -> Hud :=
  setIsPlaying (put (negb (isPlaying h))).

Definition nextTrack (h : Hud) : Hud :=
  setIsPlaying (put true)
    (setTrackProgress (put 0)
       (setCurrentTrackIndex (fun prev => (prev + 1) mod List.length PLAYLIST) h)).

(** The HOME button. *)
Definition home : Hud -> Hud := setSearchResult (put None).

(** [onChange] of the search input. *)
Definition onChange (value : jsstr) : Hud -> Hud := setSearchQuery (put value).

(* ================================================================= *)
(** ** The feed pane of the render function *)

Inductive FeedPane :=
| QueryingIndicator
    (* QUERYING GLOBAL NETWORK... *)
| SearchResultView (result : jsstr) (sourceLinks : option (list Citation))
    (* the result text; the source-link block only when there are links *)
| InitializingFeed
    (* INITIALIZING FEED... *)
| HeadlineList (rows : list (nat * jsstr)).
    (* each headline with its number [idx + 1] *)

Definition headlineView (h : Hud) : FeedPane :=
  if (List.length (newsHeadlines h) =? 0)%nat then InitializingFeed
  else HeadlineList (combine (seq 1 (List.length (newsHeadlines h))) (newsHeadlines h)).

(** [isSearching ? ... : searchResult ? ... : ...]: the second test is
    ToBoolean of [searchResult]. *)
Definition feedPane (h : Hud) : FeedPane :=
  if isSearching h then QueryingIndicator
  else match searchResult h with
       | Some result =>
           if truthy result then
             SearchResultView result
               (if (0 <? List.length (groundingUrls h))%nat
                then Some (groundingUrls h) else None)
           else headlineView h
       | None => headlineView h
       end.

(* ================================================================= *)
(** ** The runtime: pending operations, timers, listeners, effects *)

(** An operation that has been started and has not settled, with the
    continuations it was given. *)
Inductive Task :=
| AwaitPosition (success : Coords -> Prog) (error : PositionError -> Prog)
| AwaitContent (req : Request) (fulfilled : Response -> Prog) (rejected : Prog)
| AwaitBattery.

(** An interval callback; it is handed the clock reading of its firing. *)
Definition Callback := Z -> Hud -> Hud.

(** A battery event listener; it reads the manager it closes over. *)
Definition Listener := BatteryManager -> Hud -> Hud.

(** The function an effect returns: here always [() => clearInterval(x)]. *)
Inductive Cleanup := ClearInterval (handle : option nat).

(** The four [useEffect] calls, in source order. *)
Inductive Effect := ClockEffect | ProgressEffect | BatteryEffect | StartupEffect.

Definition Effect_eqb (a b : Effect) : bool :=
  match a, b with
  | ClockEffect, ClockEffect | ProgressEffect, ProgressEffect
  | BatteryEffect, BatteryEffect | StartupEffect, StartupEffect => true
  | _, _ => false
  end.

Record World := mkWorld {
  hud : Hud;
  mounted : bool;
  tasks : list Task;                 (* unsettled operations, oldest first *)
  asked : list Request;              (* every generateContent call so far *)
  timers : list (nat * Callback);    (* live intervals *)
  next_timer : nat;
  bat : BatteryManager;
  listeners : list (BatteryEventType * Listener);   (* live registrations *)
  cleanups : Effect -> option Cleanup
}.

Definition with_hud (f : Hud -> Hud) (w : World) : World :=
  mkWorld (f (hud w)) (mounted w) (tasks w) (asked w) (timers w) (next_timer w)
          (bat w) (listeners w) (cleanups w).
Definition with_tasks (f : list Task -> list Task) (w : World) : World :=
  mkWorld (hud w) (mounted w) (f (tasks w)) (asked w) (timers w) (next_timer w)
          (bat w) (listeners w) (cleanups w).
Definition with_asked (f : list Request -> list Request) (w : World) : World :=
  mkWorld (hud w) (mounted w) (tasks w) (f (asked w)) (timers w) (next_timer w)
          (bat w) (listeners w) (cleanups w).
Definition with_timers (f : list (nat * Callback) -> list (nat * Callback))
    (w : World) : World :=
  mkWorld (hud w) (mounted w) (tasks w) (asked w) (f (timers w)) (next_timer w)
          (bat w) (listeners w) (cleanups w).
Definition with_listeners
    (f : list (BatteryEventType * Listener) -> list (BatteryEventType * Listener))
    (w : World) : World :=
  mkWorld (hud w) (mounted w) (tasks w) (asked w) (timers w) (next_timer w)
          (bat w) (f (listeners w)) (cleanups w).
Definition with_cleanup (e : Effect) (c : option Cleanup) (w : World) : World :=
  mkWorld (hud w) (mounted w) (tasks w) (asked w) (timers w) (next_timer w)
          (bat w) (listeners w)
          (fun e' => if Effect_eqb e e' then c else cleanups w e').

(** Run a handler body up to its end or its first suspension. *)
Fixpoint exec (p : Prog) (w : World) : World :=
  match p with
  | Done => w
  | Update f k => exec k (with_hud f w)
  | GetCurrentPosition success error =>
      with_tasks (fun ts => ts ++ [AwaitPosition success error]) w
  | GenerateContent req fulfilled rejected =>
      with_asked (fun rs => rs ++ [req])
        (with_tasks (fun ts => ts ++ [AwaitContent req fulfilled rejected]) w)
  end.

Definition setInterval (cb : Callback) (w : World) : nat * World :=
  (next_timer w,
   mkWorld (hud w) (mounted w) (tasks w) (asked w)
           (timers w ++ [(next_timer w, cb)]) (S (next_timer w))
           (bat w) (listeners w) (cleanups w)).

(** [clearInterval(undefined)] does nothing. *)
Definition clearInterval (handle : option nat) (w : World) : World :=
  match handle with
  | Some id => with_timers (filter (fun t => negb (fst t =? id)%nat)) w
  | None => w
  end.

Definition addEventListener (ty : BatteryEventType) (l : Listener) : World -> World :=
  with_listeners (fun ls => ls ++ [(ty, l)]).

(* ----------------------------------------------------------------- *)
(** *** The effects *)

Definition clockEffect (w : World) : World * option Cleanup :=
  let (timer, w1) := setInterval (fun now => setTime (put now)) w in
  (w1, Some (ClearInterval (Some timer))).

(** [interval] stays [undefined] when [isPlaying] is false. *)
Definition progressEffect (w : World) : World * option Cleanup :=
  if isPlaying (hud w) then
    let (interval, w1) :=
      setInterval (fun _ => setTrackProgress (fun prev => (prev + 1) mod 100)) w in
    (w1, Some (ClearInterval (Some interval)))
  else (w, Some (ClearInterval None)).

(** The level is kept as a rational and the product is exact; the source
    multiplies doubles, so only the charging flag and the fact of the write
    are read off this definition, not the digits of the level. *)
Definition updateBattery : Listener :=
  fun b => setBattery (put {| level := (bat_level b * 100)%Q; charging := bat_charging b |}).

(** The callback given to [getBattery().then]. *)
Definition battery_then (w : World) : World :=
  addEventListener chargingchange updateBattery
    (addEventListener levelchange updateBattery
       (with_hud (updateBattery (bat w)) w)).

(** The battery effect returns nothing. *)
Definition batteryEffect (nav : Navigator) (w : World) : World * option Cleanup :=
  if has_getBattery nav
  then (with_tasks (fun ts => ts ++ [AwaitBattery]) w, None)
  else (w, None).

Definition startupEffect (nav : Navigator) (w : World) : World * option Cleanup :=
  (exec (fetchWeather nav) (exec fetchNews w), None).

Definition runEffect (e : Effect) (body : World -> World * option Cleanup)
    (w : World) : World :=
  let (w1, c) := body w in with_cleanup e c w1.

Definition runCleanup (e : Effect) (w : World) : World :=
  match cleanups w e with
  | Some (ClearInterval handle) => clearInterval handle (with_cleanup e None w)
  | None => w
  end.

(** Activation: the initial state, then the effects in source order. *)
Definition mount (nav : Navigator) (now : Z) (b : BatteryManager) : World :=
  runEffect StartupEffect (startupEffect nav)
    (runEffect BatteryEffect (batteryEffect nav)
       (runEffect ProgressEffect progressEffect
          (runEffect ClockEffect clockEffect
             {| hud := initialHud now; mounted := true; tasks := []; asked := [];
                timers := []; next_timer := 1; bat := b; listeners := [];
                cleanups := fun _ => None |}))).

(** Deactivation: every cleanup that an effect returned. *)
Definition unmount (w : World) : World :=
  let w1 := runCleanup StartupEffect
              (runCleanup BatteryEffect
                 (runCleanup ProgressEffect (runCleanup ClockEffect w))) in
  mkWorld (hud w1) false (tasks w1) (asked w1) (timers w1) (next_timer w1)
          (bat w1) (listeners w1) (cleanups w1).

(** After a render in which [isPlaying] changed, the progress effect is
    cleaned up and run again (its dependency list is [[isPlaying]]). *)
Definition rerender (wasPlaying : bool) (w : World) : World :=
  if mounted w && negb (Bool.eqb wasPlaying (isPlaying (hud w)))
  then runEffect ProgressEffect progressEffect (runCleanup ProgressEffect w)
  else w.

(* ----------------------------------------------------------------- *)
(** *** Events *)

Inductive PositionOutcome := Located (c : Coords) | Failed (e : PositionError).

Inductive Event :=
| Tick (now : Z)                                   (* one second passes *)
| PositionSettled (i : nat) (r : PositionOutcome)  (* task [i] settles *)
| ContentSettled (i : nat) (o : Outcome)
| BatteryReady (i : nat)
| BatteryEvent (ty : BatteryEventType) (reading : BatteryManager)
| Input (value : jsstr)
| KeyDown (key : jsstr)
| Home
| Rescan
| TogglePlay
| NextTrack
| Deactivate.

Definition remove_at {A} (i : nat) (l : list A) : list A :=
  firstn i l ++ skipn (S i) l.

Definition settled (i : nat) : World -> World := with_tasks (remove_at i).

Definition fire (now : Z) (w : World) : World :=
  with_hud (fun h => fold_left (fun h t => snd t now h) (timers w) h) w.

Definition notify (ty : BatteryEventType) (reading : BatteryManager) (w : World) : World :=
  let w1 := mkWorld (hud w) (mounted w) (tasks w) (asked w) (timers w)
                    (next_timer w) reading (listeners w) (cleanups w) in
  with_hud (fun h => fold_left
                       (fun h l => if BatteryEventType_eqb (fst l) ty
                                   then snd l reading h else h)
                       (listeners w) h) w1.

(** User input reaches the handlers only while the component is mounted. *)
Definition dispatch (nav : Navigator) (ev : Event) (w : World) : World :=
  match ev with
  | Tick now => fire now w
  | PositionSettled i r =>
      match nth_error (tasks w) i with
      | Some (AwaitPosition success error) =>
          exec (match r with Located c => success c | Failed e => error e end)
               (settled i w)
      | _ => w
      end
  | ContentSettled i o =>
      match nth_error (tasks w) i with
      | Some (AwaitContent _ fulfilled rejected) =>
          exec (match o with Fulfilled r => fulfilled r | ServiceError => rejected end)
               (settled i w)
      | _ => w
      end
  | BatteryReady i =>
      match nth_error (tasks w) i with
      | Some AwaitBattery => battery_then (settled i w)
      | _ => w
      end
  | BatteryEvent ty reading => notify ty reading w
  | Input value => if mounted w then with_hud (onChange value) w else w
  | KeyDown key => if mounted w then exec (handleSearch key (hud w)) w else w
  | Home => if mounted w then with_hud home w else w
  | Rescan => if mounted w then exec (fetchWeather nav) w else w
  | TogglePlay => if mounted w then with_hud (togglePlay (hud w)) w else w
  | NextTrack => if mounted w then with_hud nextTrack w else w
  | Deactivate => if mounted w then unmount w else w
  end.

Definition step (nav : Navigator) (ev : Event) (w : World) : World :=
  rerender (isPlaying (hud w)) (dispatch nav ev w).

Definition run (nav : Navigator) (evs : list Event) (w : World) : World :=
  fold_left (fun w ev => step nav ev w) evs w.

(* ================================================================= *)
(** ** Notions used to state the properties *)

(** The state updates a handler body applies before it ends or suspends. *)
Fixpoint updates (p : Prog) (h : Hud) : Hud :=
  match p with
  | Update f k => updates k (f h)
  | _ => h
  end.

(** The operation a handler body suspends on, if any. *)
Fixpoint suspension (p : Prog) : list Task :=
  match p with
  | Done => []
  | Update _ k => suspension k
  | GetCurrentPosition success error => [AwaitPosition success error]
  | GenerateContent req fulfilled rejected => [AwaitContent req fulfilled rejected]
  end.

(** The [generateContent] call a handler body makes before suspending. *)
Fixpoint requested (p : Prog) : list Request :=
  match p with
  | Update _ k => requested k
  | GenerateContent req _ _ => [req]
  | _ => []
  end.

(** Blank as a test on the code units, without [trim]. *)
Definition is_blank (s : jsstr) : bool := forallb is_white_space s.

(** The numbered rows of the headline list. *)
Definition numbered (hs : list jsstr) : list (nat * jsstr) :=
  combine (seq 1 (List.length hs)) hs.

(** The link block of the search-result view. *)
Definition linkBlock (cs : list Citation) : option (list Citation) :=
  match cs with [] => None | _ :: _ => Some cs end.

(** The Display Mode Selector in the specification's words: querying while
    pending, else the search-result view when the result text is not null,
    else the headline view. *)
Definition displayMode_spec (pending : bool) (resultText : option jsstr)
    (citations : list Citation) (headlines : list jsstr) : FeedPane :=
  if pending then QueryingIndicator
  else match resultText with
       | Some result => SearchResultView result (linkBlock citations)
       | None => match headlines with
                 | [] => InitializingFeed
                 | _ :: _ => HeadlineList (numbered headlines)
                 end
       end.

(** Which citations a list of grounding chunks gives: one per chunk with a
    [web] part, in order, carrying that part's title and uri as they are. *)
Inductive Citations : list Chunk -> list Citation -> Prop :=
| Citations_nil : Citations [] []
| Citations_web w chunks urls :
    Citations chunks urls ->
    Citations (mkChunk (Some w) :: chunks)
              (mkCitation (web_title w) (web_uri w) :: urls)
| Citations_other chunks urls :
    Citations chunks urls ->
    Citations (mkChunk None :: chunks) urls.

(** A handler body that never writes [newsHeadlines], now or after any of
    its suspensions. *)
Inductive keeps_headlines : Prog -> Prop :=
| keeps_Done : keeps_headlines Done
| keeps_Update f k :
    (forall h, newsHeadlines (f h) = newsHeadlines h) ->
    keeps_headlines k -> keeps_headlines (Update f k)
| keeps_GetCurrentPosition success error :
    (forall c, keeps_headlines (success c)) ->
    (forall e, keeps_headlines (error e)) ->
    keeps_headlines (GetCurrentPosition success error)
| keeps_GenerateContent req fulfilled rejected :
    (forall r, keeps_headlines (fulfilled r)) ->
    keeps_headlines rejected ->
    keeps_headlines (GenerateContent req fulfilled rejected).

Definition task_keeps_headlines (t : Task) : Prop :=
  match t with
  | AwaitPosition success error =>
      (forall c, keeps_headlines (success c)) /\ (forall e, keeps_headlines (error e))
  | AwaitContent _ fulfilled rejected =>
      (forall r, keeps_headlines (fulfilled r)) /\ keeps_headlines rejected
  | AwaitBattery => True
  end.

(** Every live interval is one that a mounted effect will clear: the clock's
    always, the progress timer exactly while playing.  [playing] is the value
    of [isPlaying] the effects last ran with. *)
Definition timers_for (playing : bool) (w : World) : Prop :=
  if mounted w then
    exists c, cleanups w ClockEffect = Some (ClearInterval (Some c))
      /\ c < next_timer w
      /\ if playing
         then exists p, cleanups w ProgressEffect = Some (ClearInterval (Some p))
                /\ p < next_timer w /\ p <> c /\ map fst (timers w) = [c; p]
         else cleanups w ProgressEffect = Some (ClearInterval None)
              /\ map fst (timers w) = [c]
  else timers w = [].

Definition timers_owned (w : World) : Prop := timers_for (isPlaying (hud w)) w.

(** Nothing that is still to run writes [newsHeadlines]: no pending task,
    no interval callback, no battery listener. *)
Definition headlines_settled (w : World) : Prop :=
  Forall task_keeps_headlines (tasks w)
  /\ Forall (fun t : nat * Callback =>
               forall now h, newsHeadlines (snd t now h) = newsHeadlines h)
            (timers w)
  /\ Forall (fun l : BatteryEventType * Listener =>
               forall b h, newsHeadlines (snd l b h) = newsHeadlines h)
            (listeners w).

(** The request and the pending task of [fetchNews]. *)
Definition newsRequest : Request :=
  {| model := gemini; contents := newsPrompt; googleSearch := false |}.

Definition newsTask : Task := AwaitContent newsRequest fetchNews_then fetchNews_catch.

(** The pending task of a search. *)
Definition searchTask (query : jsstr) : Task :=
  AwaitContent {| model := gemini; contents := query; googleSearch := true |}
               handleSearch_then handleSearch_catch.

(** What settling a search leaves in [searchResult] and [groundingUrls]. *)
Definition textAfter (o : Outcome) : option jsstr :=
  match o with
  | Fulfilled r => text r
  | ServiceError => Some connectionInterrupted
  end.

Definition urlsAfter (o : Outcome) (prev : list Citation) : list Citation :=
  match o with
  | Fulfilled r =>
      match groundingChunks r with
      | Some chunks => extractUrls chunks
      | None => prev
      end
  | ServiceError => prev
  end.

(** A citation whose link is present and not empty. *)
Definition has_link (c : Citation) : bool := truthy_opt (uri c).

(** The request of [fetchWeather]. *)
Definition weatherRequest (c : Coords) : Request :=
  {| model := gemini; contents := weatherPrompt c; googleSearch := true |}.

(** The world right after activation on a device with geolocation and no
    battery capability: the startup effect has one news request and one
    position request pending, in that order. *)
Definition startWorld : World :=
  mount (mkNavigator false true) 0 (mkBatteryManager 1 true).

Definition hereCoords : Coords := mkCoords (lit "35.68") (lit "139.69").

(* ================================================================= *)
(** ** Further parts of the render function *)

(** Decimal digits of a number, most significant first. *)
Fixpoint digits (fuel n : nat) (acc : jsstr) : jsstr :=
  match fuel with
  | 0 => acc
  | S fuel' =>
      let acc' := (48 + N.of_nat (n mod 10))%N :: acc in
      if (n / 10 =? 0)%nat then acc' else digits fuel' (n / 10) acc'
  end.

(** [Number.prototype.toString] on a non-negative integer. *)
Definition toString (n : nat) : jsstr := digits (S n) n [].

(** [String.prototype.padStart] with a pad of one code unit. *)
Definition padStart (target : nat) (pad : N) (s : jsstr) : jsstr :=
  repeat pad (target - List.length s) ++ s.

Definition zero : N := 48.      (* '0' *)
Definition letterC : N := 67.   (* 'C' *)

(** The elapsed label of the player: [00:] and the progress on two digits. *)
Definition progressLabel (h : Hud) : jsstr :=
  lit "00:" ++ padStart 2 zero (toString (trackProgress h)).

(** The bracketed number in front of a headline row. *)
Definition headlineLabel (number : nat) : jsstr :=
  lit "[" ++ padStart 2 zero (toString number) ++ lit "]".

Definition days : list jsstr :=
  [ lit "SUNDAY"; lit "MONDAY"; lit "TUESDAY"; lit "WEDNESDAY"; lit "THURSDAY";
    lit "FRIDAY"; lit "SATURDAY" ].

(** [formatDate], on the two readings it takes of its argument: [getDay()]
    and [getDate()].  An index outside the table interpolates as
    [undefined]. *)
Definition formatDate (getDay getDate : nat) : jsstr :=
  nth getDay days (lit "undefined") ++ lit " " ++ padStart 2 zero (toString getDate).

(** The caption above the feed pane; it tests [searchResult] only. *)
Definition feedHeader (h : Hud) : jsstr :=
  if truthy_opt (searchResult h) then lit "SEARCH RESULTS / GROUNDED"
  else lit "DATA FEED / LIVE STREAM".

(** [PLAYLIST[currentTrackIndex]]; [None] is [undefined]. *)
Definition currentTrack (h : Hud) : option Track :=
  nth_error PLAYLIST (currentTrackIndex h).

(** [String.prototype.replace] with a pattern of one code unit and an empty
    replacement: the first occurrence is removed. *)
Fixpoint removeFirst (c : N) (s : jsstr) : jsstr :=
  match s with
  | [] => []
  | x :: s' => if (x =? c)%N then s' else x :: removeFirst c s'
  end.

(** The temperature shown in the weather widget. *)
Definition tempLabel (h : Hud) : jsstr :=
  removeFirst letterC (temp (weather h)) ++ [degree].

(* ================================================================= *)
(** ** Worlds the component can be in *)

(** The two interval callbacks of the source. *)
Definition clockTick : Callback := fun now => setTime (put now).

Definition progressTick : Callback :=
  fun _ => setTrackProgress (fun prev => (prev + 1) mod 100).

(** The continuation run when a request of each handler settles. *)
Definition weatherSettle (o : Outcome) : Prog :=
  match o with Fulfilled r => fetchWeather_then r | ServiceError => fetchWeather_catch end.

Definition newsSettle (o : Outcome) : Prog :=
  match o with Fulfilled r => fetchNews_then r | ServiceError => fetchNews_catch end.

Definition searchSettle (o : Outcome) : Prog :=
  match o with Fulfilled r => handleSearch_then r | ServiceError => handleSearch_catch end.

(** The pending operations the handlers and effects of the source start. *)
Inductive known_task : Task -> Prop :=
| known_battery : known_task AwaitBattery
| known_news : known_task newsTask
| known_position :
    known_task (AwaitPosition fetchWeather_position fetchWeather_error)
| known_weather c :
    known_task (AwaitContent (weatherRequest c) fetchWeather_then fetchWeather_catch)
| known_search query : known_task (searchTask query).

(** A world whose pending tasks, interval callbacks and listeners are all
    ones the source creates. *)
Definition known_world (w : World) : Prop :=
  Forall known_task (tasks w)
  /\ Forall (fun t : nat * Callback => snd t = clockTick \/ snd t = progressTick)
            (timers w)
  /\ Forall (fun l : BatteryEventType * Listener => snd l = updateBattery)
            (listeners w).

(** The state after the interval callbacks of one tick. *)
Inductive ticked (now : Z) : Hud -> Hud -> Prop :=
| ticked_done h : ticked now h h
| ticked_clock h h' : ticked now (clockTick now h) h' -> ticked now h h'
| ticked_progress h h' : ticked now (progressTick now h) h' -> ticked now h h'.

(** The state after the listeners of one battery event. *)
Inductive notified (b : BatteryManager) : Hud -> Hud -> Prop :=
| notified_done h : notified b h h
| notified_update h h' : notified b (updateBattery b h) h' -> notified b h h'.

(** What an event can do to the state slots. *)
Definition event_writes (ev : Event) (h h' : Hud) : Prop :=
  match ev with
  | Tick now => ticked now h h'
  | PositionSettled _ r =>
      h' = h \/ exists e, r = Failed e /\ h' = updates (fetchWeather_error e) h
  | ContentSettled _ o =>
      h' = h \/ h' = updates (weatherSettle o) h
      \/ h' = updates (newsSettle o) h \/ h' = updates (searchSettle o) h
  | BatteryReady _ => h' = h \/ exists b, h' = updateBattery b h
  | BatteryEvent _ reading => notified reading h h'
  | Input value => h' = h \/ h' = onChange value h
  | KeyDown key => h' = h \/ h' = updates (handleSearch key h) h
  | Home => h' = h \/ h' = home h
  | Rescan => h' = h
  | TogglePlay => h' = h \/ h' = togglePlay h h
  | NextTrack => h' = h \/ h' = nextTrack h
  | Deactivate => h' = h
  end.

(** While mounted, the live intervals run the clock callback and, exactly
    while playing, one progress callback. *)
Definition timers_exact (w : World) : Prop :=
  mounted w = true ->
  map snd (timers w) =
  clockTick :: (if isPlaying (hud w) then [progressTick] else []).

(** The state slots, and what it means for one to be left as it was. *)
Inductive Slot :=
| SlotTime | SlotBattery | SlotWeather | SlotIsPlaying | SlotTrackIndex
| SlotProgress | SlotQuery | SlotResult | SlotUrls | SlotIsSearching
| SlotHeadlines.

Definition same_slot (s : Slot) (h h' : Hud) : Prop :=
  match s with
  | SlotTime => time h' = time h
  | SlotBattery => battery h' = battery h
  | SlotWeather => weather h' = weather h
  | SlotIsPlaying => isPlaying h' = isPlaying h
  | SlotTrackIndex => currentTrackIndex h' = currentTrackIndex h
  | SlotProgress => trackProgress h' = trackProgress h
  | SlotQuery => searchQuery h' = searchQuery h
  | SlotResult => searchResult h' = searchResult h
  | SlotUrls => groundingUrls h' = groundingUrls h
  | SlotIsSearching => isSearching h' = isSearching h
  | SlotHeadlines => newsHeadlines h' = newsHeadlines h
  end.

(** The events that can write each slot. *)
Definition writer (s : Slot) (ev : Event) : bool :=
  match s, ev with
  | SlotTime, Tick _ => true
  | SlotBattery, (BatteryReady _ | BatteryEvent _ _) => true
  | SlotWeather, (PositionSettled _ _ | ContentSettled _ _) => true
  | SlotIsPlaying, (TogglePlay | NextTrack) => true
  | SlotTrackIndex, NextTrack => true
  | SlotProgress, (Tick _ | NextTrack) => true
  | SlotQuery, Input _ => true
  | SlotResult, (KeyDown _ | ContentSettled _ _ | Home) => true
  | SlotUrls, (KeyDown _ | ContentSettled _ _) => true
  | SlotIsSearching, (KeyDown _ | ContentSettled _ _) => true
  | SlotHeadlines, ContentSettled _ _ => true
  | _, _ => false
  end.

(** Playback stays inside the playlist and the progress scale. *)
Definition playback_in_range (h : Hud) : Prop :=
  trackProgress h < 100 /\ currentTrackIndex h < List.length PLAYLIST.

(** At most three headlines, none of them blank. *)
Definition headlines_clamped (h : Hud) : Prop :=
  List.length (newsHeadlines h) <= 3
  /\ Forall (fun line => is_blank line = false) (newsHeadlines h).

(** While a search is pending the session holds no result and no citation. *)
Definition pending_is_empty (h : Hud) : Prop :=
  isSearching h = true -> searchResult h = None /\ groundingUrls h = [].

(** A pending search task. *)
Definition is_search_task (t : Task) : Prop := exists query, t = searchTask query.

(** A handler body that never changes the part [proj] of the state, now or
    after any of its suspensions. *)
Inductive keeps {A} (proj : Hud -> A) : Prog -> Prop :=
| keeps_done : keeps proj Done
| keeps_update f k :
    (forall h, proj (f h) = proj h) -> keeps proj k -> keeps proj (Update f k)
| keeps_position success error :
    (forall c, keeps proj (success c)) -> (forall e, keeps proj (error e)) ->
    keeps proj (GetCurrentPosition success error)
| keeps_content req fulfilled rejected :
    (forall r, keeps proj (fulfilled r)) -> keeps proj rejected ->
    keeps proj (GenerateContent req fulfilled rejected).

Definition task_keeps {A} (proj : Hud -> A) (t : Task) : Prop :=
  match t with
  | AwaitPosition success error =>
      (forall c, keeps proj (success c)) /\ (forall e, keeps proj (error e))
  | AwaitContent _ fulfilled rejected =>
      (forall r, keeps proj (fulfilled r)) /\ keeps proj rejected
  | AwaitBattery => forall b h, proj (updateBattery b h) = proj h
  end.

(** Nothing that is still to run changes [proj]. *)
Definition quiet {A} (proj : Hud -> A) (w : World) : Prop :=
  Forall (task_keeps proj) (tasks w)
  /\ Forall (fun t : nat * Callback => forall now h, proj (snd t now h) = proj h)
            (timers w)
  /\ Forall (fun l : BatteryEventType * Listener =>
               forall b h, proj (snd l b h) = proj h)
            (listeners w).

(** No handler reachable from the user interface changes [proj]. *)
Definition handlers_keep {A} (proj : Hud -> A) (nav : Navigator) : Prop :=
  keeps proj (fetchWeather nav)
  /\ (forall key h, keeps proj (handleSearch key h))
  /\ (forall value h, proj (onChange value h) = proj h)
  /\ (forall h, proj (home h) = proj h)
  /\ (forall h0 h, proj (togglePlay h0 h) = proj h)
  /\ (forall h, proj (nextTrack h) = proj h)
  /\ (forall now h, proj (progressTick now h) = proj h).

(** Whether a pending task is the battery manager request. *)
Definition awaitsBattery (t : Task) : bool :=
  match t with AwaitBattery => true | _ => false end.

(** The listeners are registered once: none while the manager request is
    the only one pending, both kinds once it has arrived. *)
Definition listeners_once (w : World) : Prop :=
  (listeners w = [] /\ List.length (filter awaitsBattery (tasks w)) <= 1)
  \/ (listeners w = [(levelchange, updateBattery); (chargingchange, updateBattery)]
      /\ filter awaitsBattery (tasks w) = []).

(* ================================================================= *)
(** ** Facts about [split], [join] and [trim] *)

Lemma jsstr_eqb_eq (a b : jsstr) : jsstr_eqb a b = true <-> a = b.
Proof.
  unfold jsstr_eqb. destruct (list_eq_dec N.eq_dec a b); split; congruence.
Qed.

Lemma split_nonempty sep s : split sep s <> [].
Proof.
  destruct s as [|c s]; simpl; [discriminate|].
  destruct (c =? sep)%N; [discriminate|].
  destruct (split sep s); discriminate.
Qed.

Lemma split_pieces_free sep s :
  Forall (fun p => ~ In sep p) (split sep s).
Proof.
  induction s as [|c s IH]; simpl.
  - constructor; [intros []|constructor].
  - destruct (N.eqb_spec c sep) as [->|Hne].
    + constructor; [intros []|exact IH].
    + destruct (split sep s) as [|p ps]; inversion IH; subst.
      * constructor; [|constructor]. intros [H|[]]; congruence.
      * constructor; [|assumption]. intros [H|H]; [congruence|auto].
Qed.

Lemma join_cons sep p q qs :
  join sep (p :: q :: qs) = p ++ sep :: join sep (q :: qs).
Proof. reflexivity. Qed.

(** Joining the pieces gives the string back. *)
Lemma join_split sep s : join sep (split sep s) = s.
Proof.
  induction s as [|c s IH]; simpl; [reflexivity|].
  destruct (N.eqb_spec c sep) as [->|Hne].
  - pose proof (split_nonempty sep s) as Hn.
    destruct (split sep s) as [|q qs]; [congruence|].
    rewrite join_cons, IH. reflexivity.
  - destruct (split sep s) as [|p ps] eqn:E; simpl in *.
    + now subst.
    + destruct ps; simpl in *; now subst.
Qed.

Lemma split_app_sep sep p s :
  ~ In sep p -> split sep (p ++ sep :: s) = p :: split sep s.
Proof.
  induction p as [|c p IH]; simpl; intros Hp.
  - now rewrite N.eqb_refl.
  - destruct (N.eqb_spec c sep) as [->|Hne]; [tauto|].
    rewrite IH by tauto. reflexivity.
Qed.

Lemma split_free sep p : ~ In sep p -> split sep p = [p].
Proof.
  induction p as [|c p IH]; simpl; intros Hp; [reflexivity|].
  destruct (N.eqb_spec c sep) as [->|Hne]; [tauto|].
  rewrite IH by tauto. reflexivity.
Qed.

(** Splitting a join of separator-free pieces gives the pieces back. *)
Lemma split_join sep l :
  l <> [] -> Forall (fun p => ~ In sep p) l -> split sep (join sep l) = l.
Proof.
  induction l as [|p l IH]; [congruence|]. intros _ Hall.
  inversion Hall as [|? ? Hp Hl]; subst.
  destruct l as [|q qs].
  - simpl. now apply split_free.
  - rewrite join_cons, split_app_sep by assumption.
    f_equal. apply IH; [discriminate|assumption].
Qed.

Lemma trimStart_blank s : blank s -> trimStart s = [].
Proof.
  induction 1 as [|c s Hc _ IH]; simpl; [reflexivity|]. now rewrite Hc.
Qed.

Lemma trimStart_nil_blank s : trimStart s = [] -> blank s.
Proof.
  induction s as [|c s IH]; simpl; [constructor|].
  destruct (is_white_space c) eqn:E; [|discriminate].
  intros H. constructor; [exact E|exact (IH H)].
Qed.

(** [line.trim() !== ''] holds exactly for the lines that are not blank. *)
Lemma trim_nil_iff_blank s : trim s = [] <-> blank s.
Proof.
  unfold trim, trimEnd. split.
  - intros H. apply trimStart_nil_blank.
    apply (f_equal (@rev N)) in H. rewrite rev_involutive in H. simpl in H.
    apply trimStart_nil_blank in H.
    unfold blank in H. rewrite Forall_forall in H.
    destruct (trimStart s) eqn:E; [reflexivity|].
    exfalso.
    assert (Hs : forall s', trimStart s' = n :: j -> is_white_space n = false).
    { clear. induction s' as [|c s' IH]; simpl; [discriminate|].
      destruct (is_white_space c) eqn:Ec; [exact IH|].
      intros H; inversion H; subst; exact Ec. }
    specialize (Hs _ E).
    rewrite (H n) in Hs; [discriminate|].
    apply -> in_rev. left; reflexivity.
  - intros H. now rewrite (trimStart_blank H).
Qed.

(* ================================================================= *)
(** ** Facts about the runtime *)

Lemma nth_error_last {A} (l : list A) (x : A) :
  nth_error (l ++ [x]) (List.length l) = Some x.
Proof. rewrite nth_error_app2, Nat.sub_diag by lia. reflexivity. Qed.

Lemma remove_at_last {A} (l : list A) (x : A) :
  remove_at (List.length l) (l ++ [x]) = l.
Proof.
  unfold remove_at.
  rewrite firstn_app, Nat.sub_diag, firstn_all, skipn_all2.
  - simpl. now rewrite !app_nil_r.
  - rewrite length_app; simpl; lia.
Qed.

Lemma remove_at_length {A} (l : list A) i :
  i < List.length l -> List.length (remove_at i l) = pred (List.length l).
Proof.
  intros H. unfold remove_at.
  rewrite length_app, length_firstn, length_skipn. lia.
Qed.

(** What running a handler body does to the world. *)
Lemma exec_eq p w :
  exec p w =
  mkWorld (updates p (hud w)) (mounted w) (tasks w ++ suspension p)
          (asked w ++ requested p) (timers w) (next_timer w) (bat w)
          (listeners w) (cleanups w).
Proof.
  revert w. induction p as [|f k IH| |]; intros [h m ts rs tm nt b ls cl]; simpl.
  - now rewrite !app_nil_r.
  - rewrite IH. reflexivity.
  - now rewrite app_nil_r.
  - reflexivity.
Qed.

Lemma rerender_same p w : isPlaying (hud w) = p -> rerender p w = w.
Proof.
  intros <-. unfold rerender. rewrite Bool.eqb_reflx.
  now rewrite andb_false_r.
Qed.

(** A step that leaves [isPlaying] alone re-runs no effect. *)
Lemma step_dispatch nav ev w :
  isPlaying (hud (dispatch nav ev w)) = isPlaying (hud w) ->
  step nav ev w = dispatch nav ev w.
Proof. intros H. unfold step. now apply rerender_same. Qed.

Lemma run_cons nav ev evs w : run nav (ev :: evs) w = run nav evs (step nav ev w).
Proof. reflexivity. Qed.

Lemma run_nil nav w : run nav [] w = w.
Proof. reflexivity. Qed.

(** Re-running the progress effect touches timers and cleanups only. *)
Lemma rerender_frame p w :
  hud (rerender p w) = hud w /\ mounted (rerender p w) = mounted w
  /\ tasks (rerender p w) = tasks w /\ asked (rerender p w) = asked w
  /\ bat (rerender p w) = bat w /\ listeners (rerender p w) = listeners w.
Proof.
  unfold rerender.
  destruct (mounted w && negb (Bool.eqb p (isPlaying (hud w)))); [|tauto].
  unfold runEffect, runCleanup, progressEffect.
  destruct (cleanups w ProgressEffect) as [[[id|]]|]; simpl;
    destruct (isPlaying (hud w)); simpl; tauto.
Qed.

Lemma hud_step nav ev w : hud (step nav ev w) = hud (dispatch nav ev w).
Proof. unfold step. apply rerender_frame. Qed.

Lemma tasks_step nav ev w : tasks (step nav ev w) = tasks (dispatch nav ev w).
Proof. unfold step. apply rerender_frame. Qed.

Lemma asked_step nav ev w : asked (step nav ev w) = asked (dispatch nav ev w).
Proof. unfold step. apply rerender_frame. Qed.

Lemma listeners_step nav ev w :
  listeners (step nav ev w) = listeners (dispatch nav ev w).
Proof. unfold step. apply rerender_frame. Qed.

(** Settling a [generateContent] task runs the matching continuation. *)
Lemma dispatch_content nav w i req fulfilled rejected o :
  nth_error (tasks w) i = Some (AwaitContent req fulfilled rejected) ->
  dispatch nav (ContentSettled i o) w =
  exec (match o with Fulfilled r => fulfilled r | ServiceError => rejected end)
       (settled i w).
Proof. intros H. simpl. now rewrite H. Qed.

Lemma hud_content nav w i req fulfilled rejected o :
  nth_error (tasks w) i = Some (AwaitContent req fulfilled rejected) ->
  hud (step nav (ContentSettled i o) w) =
  updates (match o with Fulfilled r => fulfilled r | ServiceError => rejected end)
          (hud w).
Proof.
  intros H. rewrite hud_step. erewrite dispatch_content by eassumption.
  rewrite exec_eq. reflexivity.
Qed.

(* ----------------------------------------------------------------- *)
(** *** One weather resolution, step by step *)

Lemma step_Rescan nav w :
  mounted w = true -> has_geolocation nav = true ->
  step nav Rescan w =
  with_tasks (fun ts => ts ++ [AwaitPosition fetchWeather_position fetchWeather_error]) w.
Proof.
  intros Hm Hg.
  assert (E : dispatch nav Rescan w =
              with_tasks (fun ts => ts ++ [AwaitPosition fetchWeather_position
                                                         fetchWeather_error]) w).
  { simpl. rewrite Hm. unfold fetchWeather. rewrite Hg. reflexivity. }
  rewrite step_dispatch; rewrite E; reflexivity.
Qed.

Lemma step_position nav w success error r :
  step nav (PositionSettled (List.length (tasks w)) r)
       (with_tasks (fun ts => ts ++ [AwaitPosition success error]) w) =
  rerender (isPlaying (hud w))
    (exec (match r with Located c => success c | Failed e => error e end) w).
Proof.
  unfold step. f_equal. destruct w as [h m ts rs tm nt b ls cl]; simpl.
  rewrite nth_error_last. unfold settled, with_tasks; simpl.
  now rewrite remove_at_last.
Qed.

Lemma step_content nav w req fulfilled rejected o :
  step nav (ContentSettled (List.length (tasks w)) o)
       (with_tasks (fun ts => ts ++ [AwaitContent req fulfilled rejected]) w) =
  rerender (isPlaying (hud w))
    (exec (match o with Fulfilled r => fulfilled r | ServiceError => rejected end) w).
Proof.
  unfold step. f_equal. destruct w as [h m ts rs tm nt b ls cl]; simpl.
  rewrite nth_error_last. unfold settled, with_tasks; simpl.
  now rewrite remove_at_last.
Qed.

(** A granted position leads to exactly one grounded request. *)
Lemma run_Rescan_located nav w c :
  mounted w = true -> has_geolocation nav = true ->
  run nav [Rescan; PositionSettled (List.length (tasks w)) (Located c)] w =
  with_asked (fun rs => rs ++ [weatherRequest c])
    (with_tasks (fun ts => ts ++ [AwaitContent (weatherRequest c)
                                     fetchWeather_then fetchWeather_catch]) w).
Proof.
  intros Hm Hg. rewrite !run_cons, run_nil, step_Rescan by assumption.
  rewrite step_position. simpl. now apply rerender_same.
Qed.

(** The reading left by a whole resolution whose position was granted. *)
Lemma weather_resolution nav w c o :
  mounted w = true -> has_geolocation nav = true ->
  hud (run nav [Rescan; PositionSettled (List.length (tasks w)) (Located c);
                ContentSettled (List.length (tasks w)) o] w) =
  updates (match o with Fulfilled r => fetchWeather_then r
                      | ServiceError => fetchWeather_catch end) (hud w).
Proof.
  intros Hm Hg.
  change (run nav [Rescan; PositionSettled (List.length (tasks w)) (Located c);
                   ContentSettled (List.length (tasks w)) o] w)
    with (step nav (ContentSettled (List.length (tasks w)) o)
            (run nav [Rescan; PositionSettled (List.length (tasks w)) (Located c)] w)).
  rewrite run_Rescan_located by assumption.
  erewrite hud_content.
  - reflexivity.
  - simpl. apply nth_error_last.
Qed.

(** The [else] branch of the parse keeps [temp] only. *)
Lemma fetchWeather_then_partial t cs h :
  t <> [] -> List.length (map trim (split pipe t)) < 3 ->
  weather (updates (fetchWeather_then (mkResponse (Some t) cs)) h) =
  {| temp := temp (weather h); condition := lit "DATA RECEIVED";
     location := lit "LOCAL" |}.
Proof.
  intros Ht Hlen. unfold fetchWeather_then; cbn [text].
  destruct t as [|c t]; [congruence|]. cbn [truthy]. cbv zeta.
  destruct (Nat.leb_spec 3 (List.length (map trim (split pipe (c :: t)))));
    [lia|reflexivity].
Qed.

(** The [then] branch takes the first three trimmed segments. *)
Lemma fetchWeather_then_parsed t cs h s0 s1 s2 rest :
  split pipe t = s0 :: s1 :: s2 :: rest ->
  weather (updates (fetchWeather_then (mkResponse (Some t) cs)) h) =
  {| temp := trim s1; condition := trim s2; location := trim s0 |}.
Proof.
  intros Hs. unfold fetchWeather_then; cbn [text].
  destruct t as [|c t]; [discriminate Hs|]. cbn [truthy]. cbv zeta.
  rewrite Hs. reflexivity.
Qed.

(** Falsy text: nothing is written. *)
Lemma fetchWeather_then_falsy r h :
  truthy_opt (text r) = false -> updates (fetchWeather_then r) h = h.
Proof.
  unfold fetchWeather_then. destruct (text r) as [[|c t]|]; simpl;
    [reflexivity|discriminate|reflexivity].
Qed.

Lemma fetchNews_then_falsy r h :
  truthy_opt (text r) = false -> updates (fetchNews_then r) h = h.
Proof.
  unfold fetchNews_then. destruct (text r) as [[|c t]|]; simpl;
    [reflexivity|discriminate|reflexivity].
Qed.

(* ================================================================= *)
(** ** Weather Resolver *)

(** C3, as stated, fails on empty text: the engine succeeds, the text
    splits on '|' into one segment, and the reading keeps its condition and
    location (still "SCANNING..." and "UNKNOWN SECTOR" after activation)
    instead of taking "DATA RECEIVED" and "LOCAL". *)
Lemma C3_empty_text_leaves_reading :
  let w' := run (mkNavigator false true)
                [PositionSettled 1 (Located hereCoords);
                 ContentSettled 1 (Fulfilled (mkResponse (Some []) None))]
                startWorld in
  List.length (map trim (split pipe [])) < 3
  /\ weather (hud w') = {| temp := lit "--"; condition := lit "SCANNING...";
                           location := lit "UNKNOWN SECTOR" |}
  /\ condition (weather (hud w')) <> lit "DATA RECEIVED"
  /\ location (weather (hud w')) <> lit "LOCAL".
Proof.
  cbv zeta. repeat split.
  - vm_compute. lia.
  - vm_compute. discriminate.
  - vm_compute. discriminate.
Qed.

(** C3 (amended): when the Answer Engine succeeds with non-empty text that
    splits on '|' into fewer than 3 trimmed segments, the reading gets
    condition "DATA RECEIVED" and location "LOCAL" and keeps the temperature
    it had: the one held when the response is applied, for any pending
    weather request, and so the one held before the attempt when the
    attempt runs from rescan to response. *)
Theorem C3_partial_fallback_keeps_temperature nav w i req t cs c :
  t <> [] ->
  List.length (map trim (split pipe t)) < 3 ->
  (nth_error (tasks w) i = Some (AwaitContent req fetchWeather_then fetchWeather_catch) ->
   weather (hud (step nav (ContentSettled i (Fulfilled (mkResponse (Some t) cs))) w)) =
   {| temp := temp (weather (hud w)); condition := lit "DATA RECEIVED";
      location := lit "LOCAL" |})
  /\ (mounted w = true -> has_geolocation nav = true ->
      weather (hud (run nav [Rescan;
                             PositionSettled (List.length (tasks w)) (Located c);
                             ContentSettled (List.length (tasks w))
                               (Fulfilled (mkResponse (Some t) cs))] w)) =
      {| temp := temp (weather (hud w)); condition := lit "DATA RECEIVED";
         location := lit "LOCAL" |}).
Proof.
  intros Ht Hlen. split.
  - intros Hi. erewrite hud_content by eassumption.
    now apply fetchWeather_then_partial.
  - intros Hm Hg. rewrite weather_resolution by assumption.
    now apply fetchWeather_then_partial.
Qed.

Lemma C3_partial_fallback_witness :
  weather (hud (run (mkNavigator false true)
                    [Rescan; PositionSettled 2 (Located hereCoords);
                     ContentSettled 2
                       (Fulfilled (mkResponse (Some (lit "sunny today")) None))]
                    startWorld)) =
  {| temp := lit "--"; condition := lit "DATA RECEIVED"; location := lit "LOCAL" |}.
Proof.
  refine (proj2 (@C3_partial_fallback_keeps_temperature
                   (mkNavigator false true) startWorld 0
                   (mkRequest [] [] false) (lit "sunny today") None hereCoords
                   _ _) _ _).
  - discriminate.
  - vm_compute. lia.
  - reflexivity.
  - reflexivity.
Defined.

(** C4: when geolocation succeeds and the returned text splits on '|' into
    three or more segments, the reading takes the first segment as location,
    the second as temperature and the third as condition, each trimmed, and
    ignores the rest; so "Tokyo | 15°C | Rainy" gives Tokyo, 15°C, Rainy. *)
Theorem C4_pipe_triple_parsed nav w c t cs s0 s1 s2 rest :
  mounted w = true -> has_geolocation nav = true ->
  split pipe t = s0 :: s1 :: s2 :: rest ->
  weather (hud (run nav [Rescan;
                         PositionSettled (List.length (tasks w)) (Located c);
                         ContentSettled (List.length (tasks w))
                           (Fulfilled (mkResponse (Some t) cs))] w)) =
  {| temp := trim s1; condition := trim s2; location := trim s0 |}
  /\ (t = lit "Tokyo | 15" ++ [degree] ++ lit "C | Rainy" ->
      trim s0 = lit "Tokyo" /\ trim s1 = lit "15" ++ [degree] ++ lit "C"
      /\ trim s2 = lit "Rainy" /\ rest = []).
Proof.
  intros Hm Hg Hs. split.
  - rewrite weather_resolution by assumption.
    now apply fetchWeather_then_parsed with (rest := rest).
  - intros ->. vm_compute in Hs. inversion Hs; subst. vm_compute. auto.
Qed.

Lemma C4_pipe_triple_witness :
  weather (hud (run (mkNavigator false true)
                    [Rescan; PositionSettled 2 (Located hereCoords);
                     ContentSettled 2
                       (Fulfilled (mkResponse
                          (Some (lit "Tokyo | 15" ++ [degree] ++ lit "C | Rainy"))
                          None))]
                    startWorld)) =
  {| temp := lit "15" ++ [degree] ++ lit "C"; condition := lit "Rainy";
     location := lit "Tokyo" |}.
Proof.
  refine (proj1 (@C4_pipe_triple_parsed
                   (mkNavigator false true) startWorld hereCoords
                   (lit "Tokyo | 15" ++ [degree] ++ lit "C | Rainy") None
                   (lit "Tokyo ") (lit " 15" ++ [degree] ++ lit "C ")
                   (lit " Rainy") [] _ _ _)); reflexivity.
Defined.

(** Without the geolocation capability [fetchWeather] returns at once: no
    position request, no write.  This is a branch of its own, not a failure
    of the position request. *)
Lemma fetchWeather_without_geolocation nav w :
  has_geolocation nav = false -> step nav Rescan w = w.
Proof.
  intros Hg.
  assert (E : dispatch nav Rescan w = w).
  { simpl. unfold fetchWeather. rewrite Hg. now destruct (mounted w). }
  rewrite step_dispatch; rewrite E; reflexivity.
Qed.

(** C6, as stated, fails for the unavailable sensor: on a device without
    the geolocation capability a rescan returns at once and changes nothing.
    No Answer Engine call is made, as the claim says, but the reading keeps
    its initial scanning value and never becomes the GPS error tuple. *)
Lemma C6_missing_geolocation_keeps_reading :
  let nav := mkNavigator true false in
  let w := mount nav 0 (mkBatteryManager 1 true) in
  let w' := run nav [Rescan] w in
  weather (hud w') = {| temp := lit "--"; condition := lit "SCANNING...";
                        location := lit "UNKNOWN SECTOR" |}
  /\ weather (hud w') <> {| temp := lit "--"; condition := lit "NO SIGNAL";
                            location := lit "GPS ERROR" |}
  /\ map contents (asked w') = [newsPrompt]
  /\ List.length (tasks w') = List.length (tasks w).
Proof.
  cbv zeta. repeat apply conj; try (vm_compute; reflexivity).
  vm_compute. discriminate.
Qed.

(** C6 (amended): the resolver maps each failure it handles to its fixed
    tuple.  When a position request fails, whatever the code reported to the
    error callback, the reading becomes "--" / "NO SIGNAL" / "GPS ERROR" and
    no Answer Engine call is made; when the Answer Engine call is rejected
    the reading becomes "ERR" / "OFFLINE" / "UNKNOWN".  Both hold for any
    pending request and so for a resolution run from the rescan.  When the
    geolocation capability itself is missing the resolver returns at once:
    no position request, no Answer Engine call, and the reading is left as it
    was. *)
Theorem C6_weather_failure_tuples nav w e c i req :
  (nth_error (tasks w) i =
     Some (AwaitPosition fetchWeather_position fetchWeather_error) ->
   let w' := step nav (PositionSettled i (Failed e)) w in
   weather (hud w') = {| temp := lit "--"; condition := lit "NO SIGNAL";
                         location := lit "GPS ERROR" |}
   /\ asked w' = asked w /\ tasks w' = remove_at i (tasks w))
  /\ (nth_error (tasks w) i =
        Some (AwaitContent req fetchWeather_then fetchWeather_catch) ->
      weather (hud (step nav (ContentSettled i ServiceError) w)) =
      {| temp := lit "ERR"; condition := lit "OFFLINE"; location := lit "UNKNOWN" |})
  /\ (mounted w = true -> has_geolocation nav = true ->
      (let w' := run nav [Rescan;
                          PositionSettled (List.length (tasks w)) (Failed e)] w in
       weather (hud w') = {| temp := lit "--"; condition := lit "NO SIGNAL";
                             location := lit "GPS ERROR" |}
       /\ asked w' = asked w /\ tasks w' = tasks w)
      /\ weather (hud (run nav [Rescan;
                                PositionSettled (List.length (tasks w)) (Located c);
                                ContentSettled (List.length (tasks w)) ServiceError]
                           w)) =
         {| temp := lit "ERR"; condition := lit "OFFLINE";
            location := lit "UNKNOWN" |})
  /\ (has_geolocation nav = false -> step nav Rescan w = w).
Proof.
  split; [|split; [|split]].
  - intros Hi. cbv zeta. rewrite hud_step, asked_step, tasks_step.
    cbn [dispatch]. rewrite Hi, exec_eq. cbn. now rewrite !app_nil_r.
  - intros Hi. erewrite hud_content by eassumption. reflexivity.
  - intros Hm Hg. split.
    + cbv zeta. rewrite !run_cons, run_nil, step_Rescan by assumption.
      rewrite step_position. cbn [fetchWeather_error].
      rewrite rerender_same by (rewrite exec_eq; reflexivity).
      rewrite exec_eq. cbn. now rewrite !app_nil_r.
    + rewrite weather_resolution by assumption. reflexivity.
  - apply fetchWeather_without_geolocation.
Qed.

Lemma C6_weather_failure_witness :
  weather (hud (run (mkNavigator false true)
                    [Rescan; PositionSettled 2 (Failed PERMISSION_DENIED)]
                    startWorld)) =
  {| temp := lit "--"; condition := lit "NO SIGNAL"; location := lit "GPS ERROR" |}
  /\ weather (hud (step (mkNavigator false true)
                        (PositionSettled 1 (Failed POSITION_UNAVAILABLE))
                        startWorld)) =
     {| temp := lit "--"; condition := lit "NO SIGNAL"; location := lit "GPS ERROR" |}
  /\ step (mkNavigator true false) Rescan
          (mount (mkNavigator true false) 0 (mkBatteryManager 1 true)) =
     mount (mkNavigator true false) 0 (mkBatteryManager 1 true).
Proof.
  split; [|split].
  - refine (proj1 (proj1 (proj1 (proj2 (proj2
             (@C6_weather_failure_tuples
                (mkNavigator false true) startWorld
                PERMISSION_DENIED hereCoords 0 newsRequest))) _ _)));
      reflexivity.
  - refine (proj1 (proj1 (@C6_weather_failure_tuples
                            (mkNavigator false true) startWorld
                            POSITION_UNAVAILABLE hereCoords 1 newsRequest) _)).
    reflexivity.
  - refine (proj2 (proj2 (proj2
             (@C6_weather_failure_tuples
                (mkNavigator true false)
                (mount (mkNavigator true false) 0 (mkBatteryManager 1 true))
                TIMEOUT hereCoords 0 newsRequest))) _).
    reflexivity.
Defined.

(* ================================================================= *)
(** ** News Feed Loader *)

Lemma is_blank_iff s : is_blank s = true <-> blank s.
Proof.
  unfold is_blank, blank. rewrite forallb_forall, Forall_forall. reflexivity.
Qed.

(** The filter of [fetchNews] keeps exactly the lines that are not blank. *)
Lemma trim_test_is_blank s : jsstr_eqb (trim s) [] = is_blank s.
Proof.
  destruct (is_blank s) eqn:E.
  - apply jsstr_eqb_eq, trim_nil_iff_blank, is_blank_iff, E.
  - destruct (jsstr_eqb (trim s) []) eqn:E'; [|reflexivity].
    apply jsstr_eqb_eq, trim_nil_iff_blank, is_blank_iff in E'. congruence.
Qed.

Lemma fetchNews_then_lines t cs h :
  t <> [] ->
  newsHeadlines (updates (fetchNews_then (mkResponse (Some t) cs)) h) =
  firstn 3 (filter (fun line => negb (is_blank line)) (split newline t)).
Proof.
  intros Ht. unfold fetchNews_then; cbn [text].
  destruct t as [|c t]; [congruence|]. cbn [truthy updates]. unfold slice0.
  cbn [setNewsHeadlines newsHeadlines]. unfold put. f_equal.
  apply filter_ext. intros line. now rewrite trim_test_is_blank.
Qed.

Lemma join_five_nonempty sep (lines : list jsstr) :
  List.length lines = 5 -> join sep lines <> [].
Proof.
  destruct lines as [|a [|b l]]; try discriminate. intros _.
  rewrite join_cons. destruct a; discriminate.
Qed.

(** C7: a successful news load with text leaves the headlines obtained by
    splitting the text on newlines, dropping the lines that are blank and
    keeping the first 3 of the rest in order; five newline-separated lines of
    which one is blank give exactly the first 3 non-blank ones. *)
Theorem C7_headlines_split_filter_clamp nav w i req t cs :
  nth_error (tasks w) i = Some (AwaitContent req fetchNews_then fetchNews_catch) ->
  t <> [] ->
  let hs := newsHeadlines
              (hud (step nav (ContentSettled i (Fulfilled (mkResponse (Some t) cs))) w)) in
  hs = firstn 3 (filter (fun line => negb (is_blank line)) (split newline t))
  /\ Forall (fun line => ~ blank line) hs
  /\ List.length hs <= 3
  /\ (forall lines,
        t = join newline lines ->
        Forall (fun line => ~ In newline line) lines ->
        List.length lines = 5 ->
        List.length (filter is_blank lines) = 1 ->
        hs = firstn 3 (filter (fun line => negb (is_blank line)) lines)
        /\ List.length hs = 3).
Proof.
  intros Hi Ht hs.
  assert (E : hs = firstn 3 (filter (fun line => negb (is_blank line))
                                    (split newline t))).
  { unfold hs. erewrite hud_content by eassumption.
    now apply fetchNews_then_lines. }
  split; [exact E|]. split; [|split].
  - rewrite E. apply Forall_forall. intros line Hin.
    assert (Hf : In line (filter (fun line => negb (is_blank line))
                                 (split newline t))).
    { rewrite <- (firstn_skipn 3). apply in_or_app. now left. }
    apply filter_In in Hf. destruct Hf as [_ Hf].
    intros Hb. apply is_blank_iff in Hb. rewrite Hb in Hf. discriminate.
  - rewrite E, length_firstn. lia.
  - intros lines -> Hfree Hlen Hblank.
    assert (Hne : lines <> []) by (destruct lines; [discriminate|congruence]).
    rewrite split_join in E by assumption. split; [exact E|].
    rewrite E, length_firstn.
    pose proof (filter_length is_blank lines) as Hp. lia.
Qed.

Lemma C7_headlines_witness :
  let hs := newsHeadlines
              (hud (step (mkNavigator false true)
                         (ContentSettled 0
                            (Fulfilled (mkResponse
                               (Some (join newline
                                        [lit "AI WINS"; lit "  "; lit "GRID DOWN";
                                         lit "MOON BASE"; lit "CHIP WAR"]))
                               None)))
                         startWorld)) in
  hs = [lit "AI WINS"; lit "GRID DOWN"; lit "MOON BASE"] /\ List.length hs = 3.
Proof.
  refine (proj2 (proj2 (proj2 (@C7_headlines_split_filter_clamp
                                 (mkNavigator false true) startWorld 0 newsRequest
                                 (join newline [lit "AI WINS"; lit "  ";
                                                lit "GRID DOWN"; lit "MOON BASE";
                                                lit "CHIP WAR"]) None _ _)))
                [lit "AI WINS"; lit "  "; lit "GRID DOWN"; lit "MOON BASE";
                 lit "CHIP WAR"] _ _ _ _).
  - reflexivity.
  - discriminate.
  - reflexivity.
  - repeat constructor; intros H; vm_compute in H;
      repeat (destruct H as [H|H]; [discriminate H|]); exact H.
  - reflexivity.
  - reflexivity.
Defined.

(** C8: a news load that fails leaves exactly the three fallback lines, in
    order, and starts nothing: no further request, no new pending task. *)
Theorem C8_news_fallback_no_retry nav w i req :
  nth_error (tasks w) i = Some (AwaitContent req fetchNews_then fetchNews_catch) ->
  let w' := step nav (ContentSettled i ServiceError) w in
  newsHeadlines (hud w') =
    [ lit "NETWORK ERROR: UNABLE TO SYNC WITH WORLD DATA.";
      lit "LOCAL CACHE LOADED.";
      lit "SYSTEM DIAGNOSTICS RECOMMENDED." ]
  /\ asked w' = asked w
  /\ tasks w' = remove_at i (tasks w).
Proof.
  intros Hi w'. unfold w'.
  rewrite hud_step, asked_step, tasks_step.
  erewrite dispatch_content by eassumption.
  rewrite exec_eq. cbn. rewrite !app_nil_r. auto.
Qed.

Lemma C8_news_fallback_witness :
  newsHeadlines (hud (step (mkNavigator false true)
                           (ContentSettled 0 ServiceError) startWorld)) =
  [ lit "NETWORK ERROR: UNABLE TO SYNC WITH WORLD DATA.";
    lit "LOCAL CACHE LOADED.";
    lit "SYSTEM DIAGNOSTICS RECOMMENDED." ].
Proof.
  refine (proj1 (@C8_news_fallback_no_retry
                   (mkNavigator false true) startWorld 0 newsRequest _)).
  reflexivity.
Defined.

(* ----------------------------------------------------------------- *)
(** *** Only [fetchNews] writes the headlines *)

Lemma keeps_updates p :
  keeps_headlines p -> forall h, newsHeadlines (updates p h) = newsHeadlines h.
Proof.
  induction 1 as [|f k Hf _ IH| |]; intros h; simpl; try reflexivity.
  now rewrite IH, Hf.
Qed.

Lemma keeps_suspension p :
  keeps_headlines p -> Forall task_keeps_headlines (suspension p).
Proof.
  induction 1; simpl; auto; repeat constructor; auto.
Qed.

Lemma fetchWeather_then_keeps r : keeps_headlines (fetchWeather_then r).
Proof.
  unfold fetchWeather_then. destruct (text r) as [t|]; [|constructor].
  destruct (truthy t); [|constructor]. cbv zeta.
  destruct (3 <=? _); repeat constructor.
Qed.

Lemma fetchWeather_keeps nav : keeps_headlines (fetchWeather nav).
Proof.
  unfold fetchWeather. destruct (negb (has_geolocation nav)); constructor.
  - intros c. constructor; [apply fetchWeather_then_keeps|repeat constructor].
  - intros e. repeat constructor.
Qed.

Lemma handleSearch_then_keeps r : keeps_headlines (handleSearch_then r).
Proof.
  unfold handleSearch_then. constructor; [reflexivity|].
  destruct (groundingChunks r); repeat constructor.
Qed.

Lemma handleSearch_keeps key h : keeps_headlines (handleSearch key h).
Proof.
  unfold handleSearch. destruct (_ && _); [|constructor].
  do 3 (constructor; [reflexivity|]).
  constructor; [apply handleSearch_then_keeps|repeat constructor].
Qed.

Lemma In_remove_at {A} i (l : list A) x : In x (remove_at i l) -> In x l.
Proof.
  unfold remove_at. intros H. apply in_app_or in H.
  rewrite <- (firstn_skipn i l). apply in_or_app.
  destruct H as [H|H]; [now left|right].
  change (skipn (S i) l) with (skipn (1 + i) l) in H.
  rewrite <- skipn_skipn in H.
  destruct (skipn i l) as [|y ys]; simpl in H; [contradiction|now right].
Qed.

Lemma Forall_remove_at {A} (P : A -> Prop) i l :
  Forall P l -> Forall P (remove_at i l).
Proof.
  rewrite !Forall_forall. intros H x Hx. eapply H, In_remove_at, Hx.
Qed.

Lemma exec_settled p w :
  keeps_headlines p -> headlines_settled w ->
  headlines_settled (exec p w)
  /\ newsHeadlines (hud (exec p w)) = newsHeadlines (hud w).
Proof.
  intros Hp (Ht & Hc & Hl). rewrite exec_eq. unfold headlines_settled; simpl.
  repeat split; auto.
  - apply Forall_app; split; [assumption|now apply keeps_suspension].
  - now apply keeps_updates.
Qed.

Lemma settled_settled i w : headlines_settled w -> headlines_settled (settled i w).
Proof.
  intros (Ht & Hc & Hl). unfold headlines_settled; simpl.
  repeat split; auto using Forall_remove_at.
Qed.

Lemma runCleanup_settled e w :
  headlines_settled w ->
  headlines_settled (runCleanup e w) /\ hud (runCleanup e w) = hud w.
Proof.
  intros (Ht & Hc & Hl). unfold runCleanup.
  destruct (cleanups w e) as [[[id|]]|]; unfold headlines_settled; simpl;
    repeat split; auto.
  rewrite Forall_forall in *. intros t Hin. apply filter_In in Hin. now apply Hc.
Qed.

Lemma progressEffect_settled w :
  headlines_settled w ->
  headlines_settled (runEffect ProgressEffect progressEffect w)
  /\ hud (runEffect ProgressEffect progressEffect w) = hud w.
Proof.
  intros (Ht & Hc & Hl). unfold runEffect, progressEffect.
  destruct (isPlaying (hud w)); unfold headlines_settled; simpl;
    repeat split; auto.
  apply Forall_app; split; [assumption|]. repeat constructor.
Qed.

Lemma rerender_settled p w :
  headlines_settled w -> headlines_settled (rerender p w).
Proof.
  intros H. unfold rerender. destruct (_ && _); [|assumption].
  apply progressEffect_settled, runCleanup_settled, H.
Qed.

Lemma unmount_settled w :
  headlines_settled w ->
  headlines_settled (unmount w) /\ hud (unmount w) = hud w.
Proof.
  intros H. unfold unmount.
  destruct (runCleanup_settled ClockEffect H) as [H1 E1].
  destruct (runCleanup_settled ProgressEffect H1) as [H2 E2].
  destruct (runCleanup_settled BatteryEffect H2) as [H3 E3].
  destruct (runCleanup_settled StartupEffect H3) as [H4 E4].
  split; [exact H4|]. simpl. congruence.
Qed.

Lemma fold_callbacks_keep now (ts : list (nat * Callback)) :
  Forall (fun t => forall now h, newsHeadlines (snd t now h) = newsHeadlines h) ts ->
  forall h, newsHeadlines (fold_left (fun h t => snd t now h) ts h) = newsHeadlines h.
Proof.
  induction 1 as [|t ts Ht _ IH]; intros h; simpl; [reflexivity|].
  now rewrite IH, Ht.
Qed.

Lemma fold_listeners_keep ty reading (ls : list (BatteryEventType * Listener)) :
  Forall (fun l => forall b h, newsHeadlines (snd l b h) = newsHeadlines h) ls ->
  forall h,
    newsHeadlines
      (fold_left (fun h l => if BatteryEventType_eqb (fst l) ty
                             then snd l reading h else h) ls h) = newsHeadlines h.
Proof.
  induction 1 as [|l ls Hl _ IH]; intros h; simpl; [reflexivity|].
  rewrite IH. destruct (BatteryEventType_eqb (fst l) ty); [apply Hl|reflexivity].
Qed.

(** No event writes the headlines once nothing pending does. *)
Lemma dispatch_settled nav ev w :
  headlines_settled w ->
  headlines_settled (dispatch nav ev w)
  /\ newsHeadlines (hud (dispatch nav ev w)) = newsHeadlines (hud w).
Proof.
  intros H. pose proof H as (Ht & Hc & Hl).
  destruct ev as [now|i r|i o|i|ty reading|v|key| | | | |]; simpl.
  - split; [exact H|]. now apply fold_callbacks_keep.
  - destruct (nth_error (tasks w) i) as [[success error|?|]|] eqn:E; auto.
    rewrite Forall_forall in Ht. pose proof (Ht _ (nth_error_In _ _ E)) as [Hs He].
    destruct (exec_settled (p := match r with Located c => success c
                                            | Failed e => error e end)
                           (w := settled i w)) as [H1 H2];
      [destruct r; auto|now apply settled_settled|]. auto.
  - destruct (nth_error (tasks w) i) as [[?|req fulfilled rejected|]|] eqn:E; auto.
    rewrite Forall_forall in Ht. pose proof (Ht _ (nth_error_In _ _ E)) as [Hs He].
    destruct (exec_settled (p := match o with Fulfilled r => fulfilled r
                                            | ServiceError => rejected end)
                           (w := settled i w)) as [H1 H2];
      [destruct o; auto|now apply settled_settled|]. auto.
  - destruct (nth_error (tasks w) i) as [[?|?|]|] eqn:E; auto.
    unfold battery_then, headlines_settled; simpl. repeat split; auto.
    + now apply Forall_remove_at.
    + rewrite <- app_assoc. apply Forall_app; split; [assumption|].
      repeat constructor.
  - unfold headlines_settled; simpl. repeat split; auto.
    now apply fold_listeners_keep.
  - destruct (mounted w); auto.
  - destruct (mounted w); auto.
    apply exec_settled; [apply handleSearch_keeps|assumption].
  - destruct (mounted w); auto.
  - destruct (mounted w); auto.
    apply exec_settled; [apply fetchWeather_keeps|assumption].
  - destruct (mounted w); auto.
  - destruct (mounted w); auto.
  - destruct (mounted w); auto.
    destruct (unmount_settled H) as [H1 H2]. split; [exact H1|now rewrite H2].
Qed.

Lemma step_settled nav ev w :
  headlines_settled w ->
  headlines_settled (step nav ev w)
  /\ newsHeadlines (hud (step nav ev w)) = newsHeadlines (hud w).
Proof.
  intros H. destruct (dispatch_settled nav ev H) as [H1 H2]. split.
  - now apply rerender_settled.
  - now rewrite hud_step.
Qed.

Lemma run_settled nav evs w :
  headlines_settled w ->
  newsHeadlines (hud (run nav evs w)) = newsHeadlines (hud w).
Proof.
  revert w. induction evs as [|ev evs IH]; intros w H; [reflexivity|].
  rewrite run_cons. destruct (step_settled nav ev H) as [H1 H2].
  now rewrite IH.
Qed.

(** After activation the news request is the only pending writer of the
    headlines: with it removed, nothing pending writes them. *)
Lemma mount_settled nav now b :
  let i := if has_getBattery nav then 1 else 0 in
  nth_error (tasks (mount nav now b)) i = Some newsTask
  /\ headlines_settled (settled i (mount nav now b))
  /\ newsHeadlines (hud (mount nav now b)) = [].
Proof.
  destruct nav as [[|] [|]]; cbv zeta; (split; [reflexivity|]);
    (split; [|reflexivity]); unfold headlines_settled; cbn;
    repeat split; repeat constructor;
    try apply fetchWeather_then_keeps.
Qed.

(** C10: when the Answer Engine succeeds with empty or absent text, the
    weather handler and the news handler write nothing: the state is left as
    it was.  With the headlines still empty and nothing else pending that
    writes them, they stay empty through every later event, so the headline
    view stays the loading placeholder. *)
Theorem C10_falsy_text_changes_nothing nav w i req r :
  truthy_opt (text r) = false ->
  (nth_error (tasks w) i = Some (AwaitContent req fetchWeather_then fetchWeather_catch) ->
   hud (step nav (ContentSettled i (Fulfilled r)) w) = hud w)
  /\ (nth_error (tasks w) i = Some (AwaitContent req fetchNews_then fetchNews_catch) ->
      hud (step nav (ContentSettled i (Fulfilled r)) w) = hud w
      /\ (newsHeadlines (hud w) = [] ->
          headlines_settled (settled i w) ->
          forall evs,
            let h' := hud (run nav (ContentSettled i (Fulfilled r) :: evs) w) in
            newsHeadlines h' = []
            /\ headlineView h' = InitializingFeed
            /\ (isSearching h' = false -> truthy_opt (searchResult h') = false ->
                feedPane h' = InitializingFeed))).
Proof.
  intros Hr. split.
  - intros Hi. erewrite hud_content by eassumption.
    now apply fetchWeather_then_falsy.
  - intros Hi. split.
    + erewrite hud_content by eassumption. now apply fetchNews_then_falsy.
    + intros Hempty Hset evs h'.
      assert (E : newsHeadlines h' = []).
      { unfold h'. rewrite run_cons, run_settled.
        - erewrite hud_content by eassumption.
          now rewrite fetchNews_then_falsy.
        - unfold step. apply rerender_settled.
          erewrite dispatch_content by eassumption.
          apply exec_settled; [|assumption].
          unfold fetchNews_then. destruct (text r) as [[|c t]|];
            [constructor|discriminate Hr|constructor]. }
      assert (V : headlineView h' = InitializingFeed).
      { unfold headlineView. now rewrite E. }
      repeat split; auto.
      intros Hs Hf. unfold feedPane. rewrite Hs.
      destruct (searchResult h') as [[|c t]|]; simpl in Hf; auto; discriminate.
Qed.

Lemma C10_falsy_text_witness :
  hud (step (mkNavigator false true)
            (ContentSettled 0 (Fulfilled (mkResponse (Some []) None)))
            startWorld) = hud startWorld
  /\ newsHeadlines
       (hud (run (mkNavigator false true)
                 [ContentSettled 0 (Fulfilled (mkResponse (Some []) None));
                  Tick 1000; Home]
                 startWorld)) = [].
Proof.
  pose proof (@C10_falsy_text_changes_nothing
                (mkNavigator false true) startWorld 0 newsRequest
                (mkResponse (Some []) None) eq_refl) as T.
  split.
  - exact (proj1 (proj2 T eq_refl)).
  - exact (proj1 (proj2 (proj2 T eq_refl) eq_refl
                    (proj1 (proj2 (mount_settled (mkNavigator false true) 0
                                                 (mkBatteryManager 1 true))))
                    [Tick 1000; Home])).
Defined.

(* ================================================================= *)
(** ** Search Orchestrator *)

Lemma extractUrls_Citations chunks : Citations chunks (extractUrls chunks).
Proof.
  induction chunks as [|[[w|]] chunks IH]; [constructor| |].
  - change (extractUrls (mkChunk (Some w) :: chunks))
      with (mkCitation (web_title w) (web_uri w) :: extractUrls chunks).
    now constructor.
  - change (extractUrls (mkChunk None :: chunks)) with (extractUrls chunks).
    now constructor.
Qed.

(** What the continuations of [handleSearch] write. *)
Lemma handleSearch_settle_updates o h :
  let h' := updates (match o with Fulfilled r => handleSearch_then r
                                | ServiceError => handleSearch_catch end) h in
  isSearching h' = false
  /\ searchResult h' = textAfter o
  /\ groundingUrls h' = urlsAfter o (groundingUrls h)
  /\ isPlaying h' = isPlaying h.
Proof.
  destruct o as [r|]; cbv zeta.
  - unfold handleSearch_then, textAfter, urlsAfter.
    destruct (groundingChunks r); cbn; auto.
  - cbn. auto.
Qed.

Lemma step_Input nav value w :
  mounted w = true -> step nav (Input value) w = with_hud (onChange value) w.
Proof.
  intros Hm.
  assert (E : dispatch nav (Input value) w = with_hud (onChange value) w)
    by (simpl; now rewrite Hm).
  rewrite step_dispatch; rewrite E; reflexivity.
Qed.

(** Enter on a query that is not blank: the session is reset to pending and
    one grounded request goes out.  Nothing identifies the request beyond its
    contents. *)
Lemma step_Enter nav w :
  mounted w = true -> truthy (trim (searchQuery (hud w))) = true ->
  step nav (KeyDown (lit "Enter")) w =
  with_asked (fun rs => rs ++ [{| model := gemini; contents := searchQuery (hud w);
                                  googleSearch := true |}])
    (with_tasks (fun ts => ts ++ [searchTask (searchQuery (hud w))])
       (with_hud (fun h => setGroundingUrls (put [])
                             (setSearchResult (put None)
                                (setIsSearching (put true) h))) w)).
Proof.
  intros Hm Hq.
  assert (E : dispatch nav (KeyDown (lit "Enter")) w =
              exec (handleSearch (lit "Enter") (hud w)) w)
    by (simpl; now rewrite Hm).
  rewrite step_dispatch; rewrite E; unfold handleSearch; rewrite Hq;
    reflexivity.
Qed.

(** Settling any pending search commits its outcome and starts nothing. *)
Lemma search_settle_commits nav w i req o :
  nth_error (tasks w) i = Some (AwaitContent req handleSearch_then handleSearch_catch) ->
  let w' := step nav (ContentSettled i o) w in
  isSearching (hud w') = false
  /\ searchResult (hud w') = textAfter o
  /\ groundingUrls (hud w') = urlsAfter o (groundingUrls (hud w))
  /\ tasks w' = remove_at i (tasks w)
  /\ asked w' = asked w.
Proof.
  intros Hi w'. unfold w'. rewrite tasks_step, asked_step.
  erewrite hud_content, dispatch_content by eassumption. rewrite exec_eq.
  destruct (handleSearch_settle_updates o (hud w)) as (H1 & H2 & H3 & _).
  repeat split; auto; cbn [tasks asked].
  - destruct o as [r|]; [unfold handleSearch_then;
                          destruct (groundingChunks r)|]; cbn;
      now rewrite app_nil_r.
  - destruct o as [r|]; [unfold handleSearch_then;
                          destruct (groundingChunks r)|]; cbn;
      now rewrite app_nil_r.
Qed.

Lemma run_app nav evs1 evs2 w :
  run nav (evs1 ++ evs2) w = run nav evs2 (run nav evs1 w).
Proof. unfold run. apply fold_left_app. Qed.

(** Two submissions in a row: both requests are pending, oldest first. *)
Lemma run_two_submissions nav w qa qb :
  mounted w = true -> truthy (trim qa) = true -> truthy (trim qb) = true ->
  let w4 := run nav [Input qa; KeyDown (lit "Enter");
                     Input qb; KeyDown (lit "Enter")] w in
  tasks w4 = (tasks w ++ [searchTask qa]) ++ [searchTask qb]
  /\ asked w4 = (asked w ++ [mkRequest gemini qa true]) ++ [mkRequest gemini qb true]
  /\ groundingUrls (hud w4) = []
  /\ searchResult (hud w4) = None
  /\ isSearching (hud w4) = true.
Proof.
  intros Hm Ha Hb w4. unfold w4.
  rewrite run_cons, step_Input by assumption.
  rewrite run_cons, step_Enter by (simpl; assumption).
  rewrite run_cons, step_Input by (simpl; assumption).
  rewrite run_cons, step_Enter by (simpl; assumption).
  rewrite run_nil. simpl. auto.
Qed.

(** C1, as stated, fails: query A is submitted, then query B; B's response
    settles first and A's afterwards.  B is the most recent request issued,
    yet the session ends with A's text: A's late response was committed. *)
Lemma C1_stale_response_overwrites :
  let w' := run (mkNavigator false true)
                [Input (lit "A"); KeyDown (lit "Enter");
                 Input (lit "B"); KeyDown (lit "Enter");
                 ContentSettled 3 (Fulfilled (mkResponse (Some (lit "beta")) None));
                 ContentSettled 2 (Fulfilled (mkResponse (Some (lit "alpha")) None))]
                startWorld in
  map contents (asked w') = [newsPrompt; lit "A"; lit "B"]
  /\ searchQuery (hud w') = lit "B"
  /\ isSearching (hud w') = false
  /\ searchResult (hud w') = Some (lit "alpha")
  /\ searchResult (hud w') <> Some (lit "beta").
Proof.
  cbv zeta. repeat apply conj; try (vm_compute; reflexivity).
  vm_compute. discriminate.
Qed.

(** C1 (amended): a request carries no identifier, and a response is
    committed whenever it settles.  For two submissions where the older
    request settles after the newer one, the session ends not pending, with
    the older request's outcome as result text and with the citations that
    outcome carries (those of the newer one when it carries none): the last
    response to settle wins, not the last query issued. *)
Theorem C1_last_settled_response_wins nav w qa qb oa ob :
  mounted w = true -> truthy (trim qa) = true -> truthy (trim qb) = true ->
  let n := List.length (tasks w) in
  let w' := run nav [Input qa; KeyDown (lit "Enter");
                     Input qb; KeyDown (lit "Enter");
                     ContentSettled (S n) ob; ContentSettled n oa] w in
  asked w' = asked w ++ [mkRequest gemini qa true; mkRequest gemini qb true]
  /\ tasks w' = tasks w
  /\ isSearching (hud w') = false
  /\ searchResult (hud w') = textAfter oa
  /\ groundingUrls (hud w') = urlsAfter oa (urlsAfter ob []).
Proof.
  intros Hm Ha Hb n w'. subst w'.
  change [Input qa; KeyDown (lit "Enter"); Input qb; KeyDown (lit "Enter");
          ContentSettled (S n) ob; ContentSettled n oa]
    with ([Input qa; KeyDown (lit "Enter"); Input qb; KeyDown (lit "Enter")]
          ++ [ContentSettled (S n) ob; ContentSettled n oa]).
  rewrite run_app.
  destruct (@run_two_submissions nav w qa qb Hm Ha Hb) as (Ht & Hr & Hu & _ & _).
  set (w4 := run nav [Input qa; KeyDown (lit "Enter"); Input qb;
                      KeyDown (lit "Enter")] w) in *.
  rewrite run_cons, run_cons, run_nil.
  assert (HB : nth_error (tasks w4) (S n) = Some (searchTask qb)).
  { rewrite Ht. replace (S n) with (List.length (tasks w ++ [searchTask qa]))
      by (rewrite length_app; simpl; unfold n; lia).
    apply nth_error_last. }
  destruct (@search_settle_commits nav w4 (S n) _ ob HB) as (_ & _ & Hu5 & Ht5 & Hr5).
  set (w5 := step nav (ContentSettled (S n) ob) w4) in *.
  assert (Ht5' : tasks w5 = tasks w ++ [searchTask qa]).
  { rewrite Ht5, Ht.
    replace (S n) with (List.length (tasks w ++ [searchTask qa]))
      by (rewrite length_app; simpl; unfold n; lia).
    apply remove_at_last. }
  assert (HA : nth_error (tasks w5) n = Some (searchTask qa))
    by (rewrite Ht5'; apply nth_error_last).
  destruct (@search_settle_commits nav w5 n _ oa HA) as (Hs6 & Hx6 & Hu6 & Ht6 & Hr6).
  repeat split; auto.
  - rewrite Hr6, Hr5, Hr, <- app_assoc. reflexivity.
  - rewrite Ht6, Ht5'. apply remove_at_last.
  - rewrite Hu6, Hu5, Hu. reflexivity.
Qed.

Lemma C1_last_settled_witness :
  searchResult
    (hud (run (mkNavigator false true)
              [Input (lit "A"); KeyDown (lit "Enter");
               Input (lit "B"); KeyDown (lit "Enter");
               ContentSettled 3 (Fulfilled (mkResponse (Some (lit "beta")) None));
               ContentSettled 2 ServiceError]
              startWorld)) =
  Some (lit "CONNECTION INTERRUPTED. TARGET NOT FOUND.").
Proof.
  refine (proj1 (proj2 (proj2 (proj2
           (@C1_last_settled_response_wins
              (mkNavigator false true) startWorld (lit "A") (lit "B")
              ServiceError (Fulfilled (mkResponse (Some (lit "beta")) None))
              _ _ _))))); reflexivity.
Defined.

(** C5, as stated, fails: a grounding chunk whose web source has a title
    and no uri is committed, and the search-result view lists it among the
    source links with no link to follow. *)
Lemma C5_linkless_citation_committed :
  let w' := run (mkNavigator false true)
                [Input (lit "query"); KeyDown (lit "Enter");
                 ContentSettled 2
                   (Fulfilled (mkResponse (Some (lit "answer"))
                      (Some [mkChunk (Some (mkChunkWeb (Some (lit "Source")) None))])))]
                startWorld in
  groundingUrls (hud w') = [mkCitation (Some (lit "Source")) None]
  /\ existsb (fun c => negb (has_link c)) (groundingUrls (hud w')) = true
  /\ feedPane (hud w') =
     SearchResultView (lit "answer") (Some [mkCitation (Some (lit "Source")) None]).
Proof. cbv zeta. repeat apply conj; vm_compute; reflexivity. Qed.

Lemma Citations_links chunks urls :
  Citations chunks urls ->
  Forall (fun c => match web c with
                   | Some w => truthy_opt (web_uri w) = true
                   | None => True
                   end) chunks ->
  Forall (fun c => has_link c = true) urls.
Proof.
  induction 1 as [|w chunks urls _ IH|chunks urls _ IH]; intros Hall;
    inversion Hall; subst; auto.
Qed.

(** C5 (amended): on a successful search completion that carries grounding
    chunks, the committed citations are, in order, one per chunk that has a
    web source, with that source's title and uri as they are; chunks without a
    web source are dropped.  A web source without a uri is kept, so every
    committed citation has a link exactly when every web source has one. *)
Theorem C5_citations_from_web_chunks nav w i req t chunks :
  nth_error (tasks w) i = Some (AwaitContent req handleSearch_then handleSearch_catch) ->
  let urls := groundingUrls
                (hud (step nav (ContentSettled i
                                  (Fulfilled (mkResponse t (Some chunks)))) w)) in
  Citations chunks urls
  /\ (Forall (fun c => match web c with
                       | Some w => truthy_opt (web_uri w) = true
                       | None => True
                       end) chunks ->
      Forall (fun c => has_link c = true) urls).
Proof.
  intros Hi urls.
  assert (E : urls = extractUrls chunks).
  { unfold urls.
    now destruct (@search_settle_commits nav w i req
                    (Fulfilled (mkResponse t (Some chunks))) Hi)
      as (_ & _ & -> & _). }
  rewrite E. split; [apply extractUrls_Citations|].
  apply Citations_links, extractUrls_Citations.
Qed.

Lemma C5_citations_witness :
  Citations
    [mkChunk None;
     mkChunk (Some (mkChunkWeb (Some (lit "Source")) (Some (lit "https://a.example"))))]
    (groundingUrls
       (hud (step (mkNavigator false true)
                  (ContentSettled 2
                     (Fulfilled (mkResponse (Some (lit "answer"))
                        (Some [mkChunk None;
                               mkChunk (Some (mkChunkWeb (Some (lit "Source"))
                                          (Some (lit "https://a.example"))))]))))
                  (run (mkNavigator false true)
                       [Input (lit "query"); KeyDown (lit "Enter")] startWorld)))).
Proof.
  refine (proj1 (@C5_citations_from_web_chunks
                   (mkNavigator false true)
                   (run (mkNavigator false true)
                        [Input (lit "query"); KeyDown (lit "Enter")] startWorld)
                   2 (mkRequest gemini (lit "query") true)
                   (Some (lit "answer")) _ _)).
  reflexivity.
Defined.

(* ================================================================= *)
(** ** Display Mode Selector *)

(** C9, as stated, fails: a search that succeeds with empty text leaves a
    result text that is not null, nothing is pending, and the feed pane shows
    the headline list where the specification's selector gives the
    search-result view. *)
Lemma C9_empty_result_shows_headlines :
  let h := hud (run (mkNavigator false true)
                    [ContentSettled 0
                       (Fulfilled (mkResponse (Some (lit "GRID DOWN")) None));
                     Input (lit "query"); KeyDown (lit "Enter");
                     ContentSettled 1 (Fulfilled (mkResponse (Some []) None))]
                    startWorld) in
  isSearching h = false
  /\ searchResult h = Some []
  /\ feedPane h = HeadlineList [(1, lit "GRID DOWN")]
  /\ displayMode_spec (isSearching h) (searchResult h) (groundingUrls h)
                      (newsHeadlines h) = SearchResultView [] None
  /\ feedPane h <> displayMode_spec (isSearching h) (searchResult h)
                                    (groundingUrls h) (newsHeadlines h).
Proof.
  cbv zeta. repeat apply conj; try (vm_compute; reflexivity).
  vm_compute. discriminate.
Qed.

Lemma headlineView_numbered h :
  headlineView h = match newsHeadlines h with
                   | [] => InitializingFeed
                   | _ :: _ => HeadlineList (numbered (newsHeadlines h))
                   end.
Proof. unfold headlineView. destruct (newsHeadlines h); reflexivity. Qed.

(** C9 (amended): the feed pane is a function of the pending flag, the
    result text, the citations and the headlines alone.  Pending gives the
    querying indicator; otherwise a result text that is neither null nor
    empty gives the search-result view with its citations; otherwise the
    headline view, which is the loading placeholder while there are no
    headlines.  After the home action the pane is never the search-result
    view, and with nothing pending and headlines loaded it is the headline
    list. *)
Theorem C9_feed_pane_modes h :
  (isSearching h = true -> feedPane h = QueryingIndicator)
  /\ (forall t, isSearching h = false -> searchResult h = Some t -> t <> [] ->
      feedPane h = SearchResultView t (linkBlock (groundingUrls h)))
  /\ (isSearching h = false -> truthy_opt (searchResult h) = false ->
      feedPane h = match newsHeadlines h with
                   | [] => InitializingFeed
                   | _ :: _ => HeadlineList (numbered (newsHeadlines h))
                   end)
  /\ (forall h', isSearching h' = isSearching h ->
                 searchResult h' = searchResult h ->
                 groundingUrls h' = groundingUrls h ->
                 newsHeadlines h' = newsHeadlines h ->
                 feedPane h' = feedPane h)
  /\ (forall t links, feedPane (home h) <> SearchResultView t links)
  /\ (isSearching h = false -> newsHeadlines h <> [] ->
      feedPane (home h) = HeadlineList (numbered (newsHeadlines h))).
Proof.
  repeat apply conj.
  - intros Hs. unfold feedPane. now rewrite Hs.
  - intros t Hs Hr Ht. unfold feedPane. rewrite Hs, Hr.
    destruct t as [|c t]; [congruence|]. cbn [truthy].
    unfold linkBlock. destruct (groundingUrls h); reflexivity.
  - intros Hs Hf. unfold feedPane. rewrite Hs, <- headlineView_numbered.
    destruct (searchResult h) as [[|c t]|]; simpl in Hf; auto; discriminate.
  - intros h' H1 H2 H3 H4. unfold feedPane, headlineView.
    now rewrite H1, H2, H3, H4.
  - intros t links. unfold feedPane, home; cbn.
    destruct (isSearching h); [discriminate|].
    rewrite headlineView_numbered; cbn.
    destruct (newsHeadlines h); discriminate.
  - intros Hs Hn. unfold feedPane, home; cbn. rewrite Hs.
    rewrite headlineView_numbered; cbn.
    destruct (newsHeadlines h); [congruence|reflexivity].
Qed.

Lemma C9_feed_pane_witness :
  feedPane
    (home (hud (run (mkNavigator false true)
                    [ContentSettled 0
                       (Fulfilled (mkResponse (Some (lit "GRID DOWN")) None));
                     Input (lit "query"); KeyDown (lit "Enter");
                     ContentSettled 1
                       (Fulfilled (mkResponse (Some (lit "answer")) None))]
                    startWorld))) =
  HeadlineList [(1, lit "GRID DOWN")].
Proof.
  refine (proj2 (proj2 (proj2 (proj2 (proj2 (C9_feed_pane_modes _))))) _ _).
  - reflexivity.
  - discriminate.
Defined.

(* ================================================================= *)
(** ** Timer and listener lifecycle *)

Lemma map_fst_one {A B} (l : list (A * B)) a :
  map fst l = [a] -> exists b, l = [(a, b)].
Proof.
  destruct l as [|[a' b] [|? ?]]; simpl; intros H; inversion H; subst.
  now exists b.
Qed.

Lemma map_fst_two {A B} (l : list (A * B)) a1 a2 :
  map fst l = [a1; a2] -> exists b1 b2, l = [(a1, b1); (a2, b2)].
Proof.
  destruct l as [|[x b1] [|[y b2] [|? ?]]]; simpl; intros H; inversion H; subst.
  now exists b1, b2.
Qed.

(** Events other than deactivation leave timers and cleanups to the
    effects. *)
Lemma dispatch_timers nav ev w :
  ev <> Deactivate ->
  mounted (dispatch nav ev w) = mounted w
  /\ timers (dispatch nav ev w) = timers w
  /\ next_timer (dispatch nav ev w) = next_timer w
  /\ cleanups (dispatch nav ev w) = cleanups w.
Proof.
  intros Hev.
  destruct ev as [now|i r|i o|i|ty reading|v|key| | | | |]; simpl;
    try congruence; try tauto;
    try (destruct (mounted w) eqn:Hm; rewrite ?exec_eq; simpl; rewrite ?Hm; tauto).
  - destruct (nth_error (tasks w) i) as [[? ?|? ? ?|]|]; rewrite ?exec_eq;
      simpl; tauto.
  - destruct (nth_error (tasks w) i) as [[? ?|? ? ?|]|]; rewrite ?exec_eq;
      simpl; tauto.
  - destruct (nth_error (tasks w) i) as [[? ?|? ? ?|]|]; simpl; tauto.
Qed.

Lemma timers_for_fields p w w' :
  mounted w' = mounted w -> timers w' = timers w ->
  next_timer w' = next_timer w -> cleanups w' = cleanups w ->
  timers_for p w -> timers_for p w'.
Proof.
  unfold timers_for. intros -> -> -> ->. auto.
Qed.

(** Re-running the progress effect restores the ownership of timers for the
    new value of [isPlaying]. *)
Lemma rerender_owned p w : timers_for p w -> timers_owned (rerender p w).
Proof.
  intros H. unfold timers_owned, rerender.
  destruct (mounted w) eqn:Hm; simpl.
  2:{ unfold timers_for in *. rewrite Hm in *. exact H. }
  destruct (Bool.eqb p (isPlaying (hud w))) eqn:Ep; simpl.
  { apply Bool.eqb_prop in Ep. subst p. exact H. }
  unfold timers_for in H. rewrite Hm in H. destruct H as (c & Hc & Hlt & H).
  destruct p, (isPlaying (hud w)) eqn:Hp; try discriminate Ep.
  - (* was playing, now paused: the progress timer is cleared *)
    destruct H as (q & Hq & Hqlt & Hne & Htm).
    destruct (map_fst_two _ Htm) as (f & g & El).
    unfold timers_for, runEffect, runCleanup, progressEffect.
    rewrite Hq. simpl. rewrite Hp. simpl. rewrite Hm, Hp.
    exists c. rewrite Hc, El. simpl.
    destruct (Nat.eqb_spec c q); [congruence|]. rewrite Nat.eqb_refl. simpl. auto.
  - (* was paused, now playing: one progress timer is started *)
    destruct H as (Hq & Htm).
    unfold timers_for, runEffect, runCleanup, progressEffect.
    rewrite Hq. simpl. rewrite Hp. simpl. rewrite Hm, Hp.
    exists c. rewrite Hc. repeat split; [lia|].
    exists (next_timer w). rewrite map_app, Htm. simpl. repeat split; lia.
Qed.

Lemma runCleanup_no_timers e w : timers w = [] -> timers (runCleanup e w) = [].
Proof.
  intros H. unfold runCleanup.
  destruct (cleanups w e) as [[[id|]]|]; simpl; rewrite ?H; auto.
Qed.

(** Deactivation clears every interval. *)
Lemma unmount_no_timers w :
  mounted w = true -> timers_owned w -> timers (unmount w) = [].
Proof.
  unfold timers_owned, timers_for. intros -> (c & Hc & _ & H).
  unfold unmount. cbn [timers].
  apply runCleanup_no_timers, runCleanup_no_timers.
  destruct (isPlaying (hud w)).
  - destruct H as (q & Hq & _ & Hne & Htm).
    destruct (map_fst_two _ Htm) as (f & g & El).
    unfold runCleanup. rewrite Hc. simpl. rewrite Hq. simpl. rewrite El. simpl.
    rewrite !Nat.eqb_refl. simpl.
    destruct (Nat.eqb_spec q c); [congruence|]. simpl.
    now rewrite Nat.eqb_refl.
  - destruct H as (Hq & Htm).
    destruct (map_fst_one _ Htm) as (f & El).
    unfold runCleanup. rewrite Hc. simpl. rewrite Hq. simpl. rewrite El. simpl.
    now rewrite Nat.eqb_refl.
Qed.

Lemma mount_owned nav now b : timers_owned (mount nav now b).
Proof.
  destruct nav as [[|] [|]]; unfold timers_owned, timers_for; cbn;
    exists 1; repeat split; auto.
Qed.

Lemma step_owned nav ev w : timers_owned w -> timers_owned (step nav ev w).
Proof.
  intros H. unfold step. apply rerender_owned.
  destruct ev as [now|i r|i o|i|ty reading|v|key| | | | |];
    try (match goal with
         | |- timers_for _ (dispatch _ ?e _) =>
             destruct (@dispatch_timers nav e w) as (E1 & E2 & E3 & E4);
             [discriminate|]; apply timers_for_fields with (w := w); assumption
         end).
  simpl. destruct (mounted w) eqn:Hm; [|exact H].
  pose proof (@unmount_no_timers w Hm H) as Hu.
  unfold timers_for. cbn [mounted unmount]. exact Hu.
Qed.

Lemma run_owned nav evs w : timers_owned w -> timers_owned (run nav evs w).
Proof.
  revert w. induction evs as [|ev evs IH]; intros w H; [exact H|].
  rewrite run_cons. now apply IH, step_owned.
Qed.

(** With no live interval a tick changes nothing. *)
Lemma tick_without_timers nav now w :
  timers w = [] -> hud (step nav (Tick now) w) = hud w.
Proof. intros H. rewrite hud_step. simpl. now rewrite H. Qed.

(** The timers are released: after deactivation, whatever happened before,
    no interval is live, and none comes back. *)
Lemma deactivation_clears_timers nav now b evs evs' :
  timers (run nav (evs ++ Deactivate :: evs') (mount nav now b)) = [].
Proof.
  rewrite run_app, run_cons.
  pose proof (@run_owned nav evs _ (mount_owned nav now b)) as H.
  set (w := run nav evs (mount nav now b)) in *.
  assert (Hd : mounted (step nav Deactivate w) = false
               /\ timers_owned (step nav Deactivate w)).
  { split; [|now apply step_owned].
    unfold step. destruct (rerender_frame (isPlaying (hud w))
                             (dispatch nav Deactivate w)) as (_ & -> & _).
    simpl. destruct (mounted w) eqn:Hm; [reflexivity|exact Hm]. }
  destruct Hd as [Hm Ho]. revert Hm Ho.
  generalize (step nav Deactivate w). clear.
  induction evs' as [|ev evs' IH]; intros w Hm Ho.
  - rewrite run_nil. unfold timers_owned, timers_for in Ho. now rewrite Hm in Ho.
  - rewrite run_cons. apply IH; [|now apply step_owned].
    unfold step. destruct (rerender_frame (isPlaying (hud w))
                             (dispatch nav ev w)) as (_ & -> & _).
    destruct ev;
      try (match goal with
           | |- mounted (dispatch _ ?e _) = _ =>
               now destruct (@dispatch_timers nav e w) as (-> & _)
           end);
      simpl; now rewrite Hm.
Qed.

(** Pausing leaves the clock's interval alone and no progress interval. *)
Lemma paused_only_clock nav evs now b :
  let w := run nav evs (mount nav now b) in
  mounted w = true -> isPlaying (hud w) = false ->
  exists c, cleanups w ClockEffect = Some (ClearInterval (Some c))
            /\ map fst (timers w) = [c].
Proof.
  intros w Hm Hp.
  pose proof (@run_owned nav evs _ (mount_owned nav now b)) as H.
  unfold timers_owned, timers_for in H. fold w in H. rewrite Hm, Hp in H.
  destruct H as (c & Hc & _ & _ & Ht). eauto.
Qed.

Lemma runCleanup_listeners e w : listeners (runCleanup e w) = listeners w.
Proof.
  unfold runCleanup. destruct (cleanups w e) as [[[id|]]|]; reflexivity.
Qed.

(** No event removes a battery listener: registrations only accumulate. *)
Lemma listeners_never_released nav ev w :
  exists more, listeners (step nav ev w) = listeners w ++ more.
Proof.
  rewrite listeners_step.
  destruct ev as [now|i r|i o|i|ty reading|v|key| | | | |]; simpl;
    try (exists []; rewrite app_nil_r;
         destruct (mounted w); rewrite ?exec_eq; reflexivity).
  - destruct (nth_error (tasks w) i) as [[? ?|? ? ?|]|]; rewrite ?exec_eq;
      exists []; now rewrite app_nil_r.
  - destruct (nth_error (tasks w) i) as [[? ?|? ? ?|]|]; rewrite ?exec_eq;
      exists []; now rewrite app_nil_r.
  - destruct (nth_error (tasks w) i) as [[? ?|? ? ?|]|];
      try (exists []; now rewrite app_nil_r).
    exists [(levelchange, updateBattery); (chargingchange, updateBattery)].
    simpl. now rewrite <- app_assoc.
  - exists []. rewrite app_nil_r. destruct (mounted w); [|reflexivity].
    unfold unmount. cbn [listeners]. now rewrite !runCleanup_listeners.
Qed.

(** C2 at the failing input: a device with a battery is activated, the
    battery manager arrives, playback is started, the component is
    deactivated.  Both intervals are gone and a tick changes nothing, but the
    level-change and charging-change registrations are still there, and a
    level change after deactivation still runs [updateBattery], which writes
    the battery slot. *)
Theorem C2_battery_listeners_outlive_deactivation :
  let nav := mkNavigator true true in
  let w := run nav [BatteryReady 0; TogglePlay; Deactivate]
               (mount nav 0 (mkBatteryManager 1 true)) in
  mounted w = false
  /\ timers w = []
  /\ hud (step nav (Tick 5000) w) = hud w
  /\ map fst (listeners w) = [levelchange; chargingchange]
  /\ battery (hud w) = {| level := (1 * 100)%Q; charging := true |}
  /\ battery (hud (step nav (BatteryEvent levelchange
                               (mkBatteryManager (1 # 4) false)) w)) =
     {| level := ((1 # 4) * 100)%Q; charging := false |}.
Proof. cbv zeta. repeat apply conj; vm_compute; reflexivity. Qed.

(* ================================================================= *)
(** ** What each event can write *)

Lemma settle_ends o :
  (suspension (weatherSettle o) = [] /\ requested (weatherSettle o) = [])
  /\ (suspension (newsSettle o) = [] /\ requested (newsSettle o) = [])
  /\ (suspension (searchSettle o) = [] /\ requested (searchSettle o) = []).
Proof.
  destruct o as [r|]; cbn; auto. repeat split.
  - unfold fetchWeather_then. destruct (text r) as [t|]; [|reflexivity].
    destruct (truthy t); [|reflexivity]. cbv zeta.
    destruct (3 <=? _); reflexivity.
  - unfold fetchWeather_then. destruct (text r) as [t|]; [|reflexivity].
    destruct (truthy t); [|reflexivity]. cbv zeta.
    destruct (3 <=? _); reflexivity.
  - unfold fetchNews_then. destruct (text r) as [t|]; [|reflexivity].
    destruct (truthy t); reflexivity.
  - unfold fetchNews_then. destruct (text r) as [t|]; [|reflexivity].
    destruct (truthy t); reflexivity.
  - unfold handleSearch_then. cbn. destruct (groundingChunks r); reflexivity.
  - unfold handleSearch_then. cbn. destruct (groundingChunks r); reflexivity.
Qed.

Lemma fold_ticked now (ts : list (nat * Callback)) :
  Forall (fun t => snd t = clockTick \/ snd t = progressTick) ts ->
  forall h, ticked now h (fold_left (fun h t => snd t now h) ts h).
Proof.
  induction 1 as [|t ts [E|E] _ IH]; intros h; cbn [fold_left];
    unfold Callback in *.
  - constructor.
  - rewrite E. apply ticked_clock, IH.
  - rewrite E. apply ticked_progress, IH.
Qed.

Lemma fold_notified ty reading (ls : list (BatteryEventType * Listener)) :
  Forall (fun l => snd l = updateBattery) ls ->
  forall h,
    notified reading h
      (fold_left (fun h l => if BatteryEventType_eqb (fst l) ty
                             then snd l reading h else h) ls h).
Proof.
  induction 1 as [|l ls E _ IH]; intros h; cbn [fold_left]; [constructor|].
  unfold Listener in *.
  destruct (BatteryEventType_eqb (fst l) ty); [|apply IH].
  rewrite E. apply notified_update, IH.
Qed.

Lemma mount_known nav now b : known_world (mount nav now b).
Proof.
  destruct nav as [[|] [|]]; unfold known_world; cbn;
    repeat split; repeat constructor.
Qed.

Lemma runCleanup_known e w : known_world w -> known_world (runCleanup e w).
Proof.
  intros (Ht & Hc & Hl). unfold runCleanup.
  destruct (cleanups w e) as [[[id|]]|]; unfold known_world; simpl;
    repeat split; auto.
  rewrite Forall_forall in *. intros t Hin. apply filter_In in Hin. now apply Hc.
Qed.

Lemma rerender_known p w : known_world w -> known_world (rerender p w).
Proof.
  intros H. unfold rerender. destruct (_ && _); [|assumption].
  destruct (runCleanup_known ProgressEffect H) as (Ht & Hc & Hl).
  unfold runEffect, progressEffect.
  destruct (isPlaying (hud (runCleanup ProgressEffect w)));
    unfold known_world; simpl; repeat split; auto.
  apply Forall_app; split; [assumption|].
  constructor; [right; reflexivity|constructor].
Qed.

Lemma runCleanup_core e w :
  hud (runCleanup e w) = hud w /\ asked (runCleanup e w) = asked w
  /\ tasks (runCleanup e w) = tasks w.
Proof.
  unfold runCleanup. destruct (cleanups w e) as [[[id|]]|]; auto.
Qed.

Lemma unmount_core w :
  hud (unmount w) = hud w /\ asked (unmount w) = asked w
  /\ tasks (unmount w) = tasks w.
Proof.
  unfold unmount. cbn [hud asked tasks].
  repeat match goal with
         | |- context [runCleanup ?e ?x] =>
             destruct (runCleanup_core e x) as (-> & -> & ->)
         end.
  auto.
Qed.

Lemma unmount_known w :
  known_world w ->
  known_world (unmount w) /\ hud (unmount w) = hud w /\ asked (unmount w) = asked w.
Proof.
  intros H. destruct (unmount_core w) as (Eh & Ea & _).
  split; [|auto].
  exact (runCleanup_known StartupEffect
           (runCleanup_known BatteryEffect
              (runCleanup_known ProgressEffect
                 (runCleanup_known ClockEffect H)))).
Qed.

Ltac no_new_request :=
  exists (@nil Request); rewrite ?app_nil_r; split; [reflexivity|constructor].

Ltac fields :=
  cbn [hud mounted tasks asked timers next_timer bat listeners cleanups
       settled with_tasks with_hud with_asked with_timers with_listeners
       with_cleanup].

Lemma known_parts w :
  Forall known_task (tasks w) ->
  Forall (fun t : nat * Callback => snd t = clockTick \/ snd t = progressTick)
         (timers w) ->
  Forall (fun l : BatteryEventType * Listener => snd l = updateBattery)
         (listeners w) ->
  known_world w.
Proof. unfold known_world. auto. Qed.

Lemma dispatch_known nav ev w :
  known_world w ->
  known_world (dispatch nav ev w)
  /\ event_writes ev (hud w) (hud (dispatch nav ev w))
  /\ exists new, asked (dispatch nav ev w) = asked w ++ new
                 /\ Forall (fun r => googleSearch r = true) new.
Proof.
  intros H. pose proof H as (Ht & Hc & Hl).
  destruct ev as [now|i r|i o|i|ty reading|v|key| | | | |];
    cbn [dispatch event_writes].
  - (* Tick *)
    split; [exact H|]. split; [now apply fold_ticked|no_new_request].
  - (* PositionSettled *)
    destruct (nth_error (tasks w) i) as [[success error|?|]|] eqn:E;
      try (split; [exact H|]; split; [now left|no_new_request]).
    pose proof (proj1 (Forall_forall _ _) Ht _ (nth_error_In _ _ E)) as K.
    inversion K; subst. rewrite exec_eq. fields. destruct r as [c|e].
    + split; [|split].
      * apply known_parts; fields; auto. apply Forall_app; split.
        -- now apply Forall_remove_at.
        -- repeat constructor.
      * now left.
      * exists [weatherRequest c]. split; [reflexivity|repeat constructor].
    + split; [|split].
      * apply known_parts; fields; auto. cbn [suspension fetchWeather_error].
        rewrite app_nil_r. now apply Forall_remove_at.
      * right. eauto.
      * cbn [requested fetchWeather_error]. no_new_request.
  - (* ContentSettled *)
    destruct (nth_error (tasks w) i) as [[?|req fulfilled rejected|]|] eqn:E;
      try (split; [exact H|]; split; [now left|no_new_request]).
    pose proof (proj1 (Forall_forall _ _) Ht _ (nth_error_In _ _ E)) as K.
    destruct (settle_ends o) as ((W1 & W2) & (N1 & N2) & (S1 & S2)).
    rewrite exec_eq. fields.
    inversion K; subst;
      [fold (newsSettle o); rewrite N1, N2
      |fold (weatherSettle o); rewrite W1, W2
      |fold (searchSettle o); rewrite S1, S2];
      (split; [apply known_parts; fields; auto; rewrite app_nil_r;
               now apply Forall_remove_at
              |split; [auto|no_new_request]]).
  - (* BatteryReady *)
    destruct (nth_error (tasks w) i) as [[?|?|]|] eqn:E;
      try (split; [exact H|]; split; [now left|no_new_request]).
    unfold battery_then, addEventListener. fields. split; [|split].
    + apply known_parts; fields; auto.
      * now apply Forall_remove_at.
      * rewrite <- app_assoc. apply Forall_app; split; [assumption|].
        repeat constructor.
    + right. eauto.
    + no_new_request.
  - (* BatteryEvent *)
    unfold notify. fields. split; [|split].
    + apply known_parts; fields; auto.
    + now apply fold_notified.
    + no_new_request.
  - (* Input *)
    destruct (mounted w); (split; [exact H|]; split; [auto|no_new_request]).
  - (* KeyDown *)
    destruct (mounted w); [|split; [exact H|]; split; [now left|no_new_request]].
    rewrite exec_eq. fields. split; [|split; [now right|]].
    + apply known_parts; fields; auto. apply Forall_app; split; [assumption|].
      unfold handleSearch. destruct (_ && _); cbn [suspension]; repeat constructor.
    + unfold handleSearch. destruct (_ && _); cbn [requested].
      * eexists. split; [reflexivity|repeat constructor].
      * no_new_request.
  - (* Home *)
    destruct (mounted w); (split; [exact H|]; split; [auto|no_new_request]).
  - (* Rescan *)
    destruct (mounted w); [|split; [exact H|]; split; [reflexivity|no_new_request]].
    rewrite exec_eq. fields. unfold fetchWeather.
    destruct (negb (has_geolocation nav)); cbn [updates suspension requested].
    + split; [|split; [reflexivity|no_new_request]].
      apply known_parts; fields; auto. now rewrite app_nil_r.
    + split; [|split; [reflexivity|no_new_request]].
      apply known_parts; fields; auto. apply Forall_app; split; [assumption|].
      repeat constructor.
  - (* TogglePlay *)
    destruct (mounted w); (split; [exact H|]; split; [auto|no_new_request]).
  - (* NextTrack *)
    destruct (mounted w); (split; [exact H|]; split; [auto|no_new_request]).
  - (* Deactivate *)
    destruct (mounted w); [|split; [exact H|]; split; [reflexivity|no_new_request]].
    destruct (unmount_known H) as (K & Eh & Ea).
    split; [exact K|]. split; [exact Eh|]. rewrite Ea. no_new_request.
Qed.

Lemma step_known nav ev w :
  known_world w ->
  known_world (step nav ev w)
  /\ event_writes ev (hud w) (hud (step nav ev w))
  /\ exists new, asked (step nav ev w) = asked w ++ new
                 /\ Forall (fun r => googleSearch r = true) new.
Proof.
  intros H. destruct (dispatch_known nav ev H) as (K & W & A).
  rewrite hud_step, asked_step. split; [now apply rerender_known|auto].
Qed.

Lemma run_known nav evs w : known_world w -> known_world (run nav evs w).
Proof.
  revert w. induction evs as [|ev evs IH]; intros w H; [exact H|].
  rewrite run_cons. apply IH. now apply step_known.
Qed.

(** A property of the state that every write keeps holds along every run. *)
Lemma hud_invariant (I : Hud -> Prop) :
  (forall ev h h', event_writes ev h h' -> I h -> I h') ->
  forall nav evs w, known_world w -> I (hud w) -> I (hud (run nav evs w)).
Proof.
  intros Hstep nav evs. induction evs as [|ev evs IH]; intros w K Hw;
    [exact Hw|].
  rewrite run_cons. destruct (step_known nav ev K) as (K' & W & _).
  apply IH; [exact K'|]. eapply Hstep; eauto.
Qed.

(* ----------------------------------------------------------------- *)
(** *** The writes of each continuation *)

Lemma setWeather_id h : setWeather (fun prev => prev) h = h.
Proof. now destruct h. Qed.

Lemma setNewsHeadlines_id h : setNewsHeadlines (fun prev => prev) h = h.
Proof. now destruct h. Qed.

Lemma weatherSettle_writes o h :
  exists f, updates (weatherSettle o) h = setWeather f h.
Proof.
  destruct o as [r|]; cbn; [|eauto].
  unfold fetchWeather_then.
  destruct (text r) as [t|];
    [|exists (fun prev => prev); now rewrite setWeather_id].
  destruct (truthy t);
    [|exists (fun prev => prev); now rewrite setWeather_id].
  cbv zeta. destruct (3 <=? _); cbn; eauto.
Qed.

Lemma newsSettle_writes o h :
  exists f, updates (newsSettle o) h = setNewsHeadlines f h.
Proof.
  destruct o as [r|]; cbn; [|eauto].
  unfold fetchNews_then.
  destruct (text r) as [t|];
    [|exists (fun prev => prev); now rewrite setNewsHeadlines_id].
  destruct (truthy t);
    [|exists (fun prev => prev); now rewrite setNewsHeadlines_id].
  cbn. eauto.
Qed.

Lemma searchSettle_writes o h :
  updates (searchSettle o) h =
  setIsSearching (put false)
    (setGroundingUrls (put (urlsAfter o (groundingUrls h)))
       (setSearchResult (put (textAfter o)) h)).
Proof.
  destruct o as [r|]; cbn.
  - unfold handleSearch_then. cbn. destruct (groundingChunks r); reflexivity.
  - reflexivity.
Qed.

Lemma handleSearch_writes key h0 h :
  updates (handleSearch key h0) h = h
  \/ updates (handleSearch key h0) h =
     setGroundingUrls (put [])
       (setSearchResult (put None) (setIsSearching (put true) h)).
Proof.
  unfold handleSearch. destruct (_ && _); cbn; auto.
Qed.

Lemma ticked_slots now h h' :
  ticked now h h' ->
  forall s, same_slot s h h' \/ writer s (Tick now) = true.
Proof.
  induction 1 as [h|h h' _ IH|h h' _ IH]; intros s.
  - left. destruct s; reflexivity.
  - destruct (IH s) as [E|E]; [|now right].
    destruct s; cbn in *; auto.
  - destruct (IH s) as [E|E]; [|now right].
    destruct s; cbn in *; auto.
Qed.

Lemma notified_slots ty b h h' :
  notified b h h' ->
  forall s, same_slot s h h' \/ writer s (BatteryEvent ty b) = true.
Proof.
  induction 1 as [h|h h' _ IH]; intros s.
  - left. destruct s; reflexivity.
  - destruct (IH s) as [E|E]; [|now right].
    destruct s; cbn in *; auto.
Qed.

Lemma event_writes_slots ev h h' :
  event_writes ev h h' ->
  forall s, same_slot s h h' \/ writer s ev = true.
Proof.
  destruct ev as [now|i r|i o|i|ty reading|v|key| | | | |];
    cbn [event_writes]; intros H s.
  - now apply ticked_slots.
  - destruct H as [->|(e & _ & ->)]; destruct s; cbn; auto.
  - destruct H as [->|[->|[->| ->]]].
    + destruct s; cbn; auto.
    + destruct (weatherSettle_writes o h) as [f ->]. destruct s; cbn; auto.
    + destruct (newsSettle_writes o h) as [f ->]. destruct s; cbn; auto.
    + rewrite searchSettle_writes. destruct s; cbn; auto.
  - destruct H as [->|(b & ->)]; destruct s; cbn; auto.
  - now apply notified_slots.
  - destruct H as [->| ->]; destruct s; cbn; auto.
  - destruct H as [->| ->]; [destruct s; cbn; auto|].
    destruct (handleSearch_writes key h h) as [->| ->]; destruct s; cbn; auto.
  - destruct H as [->| ->]; destruct s; cbn; auto.
  - subst. destruct s; cbn; auto.
  - destruct H as [->| ->]; destruct s; cbn; auto.
  - destruct H as [->| ->]; destruct s; cbn; auto.
  - subst. destruct s; cbn; auto.
Qed.

(** Single writer per slot: along any run from activation, an event leaves
    every slot as it was except the slots the table gives it. *)
Theorem slot_single_writer nav now b evs ev s :
  let w := run nav evs (mount nav now b) in
  same_slot s (hud w) (hud (step nav ev w)) \/ writer s ev = true.
Proof.
  intros w.
  pose proof (@run_known nav evs _ (mount_known nav now b)) as K.
  destruct (step_known nav ev K) as (_ & W & _).
  now apply event_writes_slots.
Qed.

(* ----------------------------------------------------------------- *)
(** *** Playback stays in range *)

Lemma ticked_playback now h h' :
  ticked now h h' -> playback_in_range h -> playback_in_range h'.
Proof.
  unfold playback_in_range.
  induction 1 as [h|h h' _ IH|h h' _ IH]; intros [Hp Hi]; auto.
  apply IH. unfold progressTick.
  cbn [trackProgress currentTrackIndex setTrackProgress].
  split; [|exact Hi]. apply Nat.mod_upper_bound. discriminate.
Qed.

Lemma playback_writes ev h h' :
  event_writes ev h h' -> playback_in_range h -> playback_in_range h'.
Proof.
  intros W I.
  destruct (Bool.bool_dec (writer SlotProgress ev || writer SlotTrackIndex ev) false)
    as [E|E].
  - apply orb_false_elim in E. destruct E as [E1 E2].
    destruct (@event_writes_slots ev h h' W SlotProgress) as [P|P]; [|congruence].
    destruct (@event_writes_slots ev h h' W SlotTrackIndex) as [T|T]; [|congruence].
    cbn in P, T. unfold playback_in_range. now rewrite P, T.
  - destruct ev; try (exfalso; apply E; reflexivity).
    + now apply (@ticked_playback now h h' W).
    + cbn in W. destruct W as [->| ->]; [exact I|].
      destruct I as [_ Hi]. unfold playback_in_range, nextTrack, put.
      cbn [trackProgress currentTrackIndex setTrackProgress setIsPlaying
           setCurrentTrackIndex].
      split; [lia|]. apply Nat.mod_upper_bound. vm_compute. discriminate.
Qed.

Lemma playback_range_run nav now b evs :
  playback_in_range (hud (run nav evs (mount nav now b))).
Proof.
  apply (@hud_invariant playback_in_range playback_writes).
  - apply mount_known.
  - destruct nav as [[|] [|]]; cbn; unfold playback_in_range; cbn; lia.
Qed.

(** The progress stays in 0..99 and the track index inside the playlist
    along every run, so the render always finds its current track. *)
Theorem playback_always_in_range nav now b evs :
  let h := hud (run nav evs (mount nav now b)) in
  trackProgress h < 100
  /\ currentTrackIndex h < List.length PLAYLIST
  /\ exists track, currentTrack h = Some track.
Proof.
  intros h. destruct (playback_range_run nav now b evs) as [Hp Hi].
  fold h in Hp, Hi. repeat split; auto.
  unfold currentTrack. destruct (nth_error PLAYLIST (currentTrackIndex h)) eqn:E;
    [eauto|]. apply nth_error_None in E. lia.
Qed.

(* ----------------------------------------------------------------- *)
(** *** Headlines stay clamped *)

Lemma newsSettle_clamped o h :
  headlines_clamped h -> headlines_clamped (updates (newsSettle o) h).
Proof.
  intros I. destruct o as [r|]; cbn.
  - unfold fetchNews_then. destruct (text r) as [t|]; [|exact I].
    destruct (truthy t); [|exact I]. unfold headlines_clamped, slice0, put.
    cbn [updates newsHeadlines setNewsHeadlines]. split.
    + rewrite length_firstn. lia.
    + apply Forall_forall. intros line Hin.
      assert (Hf : In line (filter (fun line => negb (jsstr_eqb (trim line) []))
                                   (split newline t))).
      { rewrite <- (firstn_skipn 3). apply in_or_app. now left. }
      apply filter_In in Hf. destruct Hf as [_ Hf].
      rewrite trim_test_is_blank in Hf. now destruct (is_blank line).
  - split; [cbn; lia|]. repeat constructor.
Qed.

Lemma headlines_writes ev h h' :
  event_writes ev h h' -> headlines_clamped h -> headlines_clamped h'.
Proof.
  intros W I.
  destruct (@event_writes_slots ev h h' W SlotHeadlines) as [E|E].
  - cbn in E. unfold headlines_clamped. now rewrite E.
  - destruct ev; try discriminate E. cbn in W.
    destruct W as [->|[->|[->| ->]]]; auto.
    + destruct (weatherSettle_writes o h) as [f ->]. exact I.
    + now apply newsSettle_clamped.
    + rewrite searchSettle_writes. exact I.
Qed.

(** Whatever the engine returns and whatever else happens, there are never
    more than three headlines and never a blank one. *)
Theorem headlines_always_clamped nav now b evs :
  let h := hud (run nav evs (mount nav now b)) in
  List.length (newsHeadlines h) <= 3
  /\ Forall (fun line => ~ blank line) (newsHeadlines h).
Proof.
  intros h.
  assert (I : headlines_clamped h).
  { apply (@hud_invariant headlines_clamped headlines_writes).
    - apply mount_known.
    - destruct nav as [[|] [|]]; split; cbn; auto. }
  destruct I as [Hl Hb]. split; [exact Hl|].
  eapply Forall_impl; [|exact Hb]. cbn. intros line E Hblank.
  apply is_blank_iff in Hblank. congruence.
Qed.

(* ----------------------------------------------------------------- *)
(** *** A pending session is empty *)

Lemma pending_writes ev h h' :
  event_writes ev h h' -> pending_is_empty h -> pending_is_empty h'.
Proof.
  intros W I.
  destruct ev as [now|i r|i o|i|ty reading|v|key| | | | |];
    try (destruct (@event_writes_slots _ h h' W SlotIsSearching) as [E1|E1];
         [|discriminate E1];
         destruct (@event_writes_slots _ h h' W SlotResult) as [E2|E2];
         [|discriminate E2];
         destruct (@event_writes_slots _ h h' W SlotUrls) as [E3|E3];
         [|discriminate E3];
         cbn in E1, E2, E3; unfold pending_is_empty;
         rewrite E1, E2, E3; exact I).
  - cbn in W. destruct W as [->|[->|[->| ->]]]; auto.
    + destruct (weatherSettle_writes o h) as [f ->]. exact I.
    + destruct (newsSettle_writes o h) as [f ->]. exact I.
    + rewrite searchSettle_writes. intros E. discriminate E.
  - cbn in W. destruct W as [->| ->]; auto.
    destruct (handleSearch_writes key h h) as [->| ->]; auto.
    intros _. split; reflexivity.
  - cbn in W. destruct W as [->| ->]; auto.
    intros E. split; [reflexivity|]. now apply I.
Qed.

(** While a search is pending the session holds neither a result nor
    citations, and the caption above the pane announces search results
    exactly when the pane shows the search-result view. *)
Theorem pending_session_is_empty nav now b evs :
  let h := hud (run nav evs (mount nav now b)) in
  (isSearching h = false \/ (searchResult h = None /\ groundingUrls h = []))
  /\ (feedHeader h = lit "SEARCH RESULTS / GROUNDED" <->
      exists result links, feedPane h = SearchResultView result links).
Proof.
  intros h.
  assert (I : pending_is_empty h).
  { apply (@hud_invariant pending_is_empty pending_writes).
    - apply mount_known.
    - destruct nav as [[|] [|]]; intros E; discriminate E. }
  split.
  - destruct (isSearching h) eqn:E; [right; now apply I|now left].
  - unfold feedHeader, feedPane.
    destruct (isSearching h) eqn:E.
    + destruct (I E) as [-> _]. cbn. split; [discriminate|].
      intros (? & ? & ?). discriminate.
    + destruct (searchResult h) as [[|c t]|]; cbn;
        try (split; [discriminate|]; rewrite headlineView_numbered;
             destruct (newsHeadlines h); intros (? & ? & ?); discriminate).
      split; [eauto|reflexivity].
Qed.

(* ----------------------------------------------------------------- *)
(** *** The news request goes out once *)

Lemma run_asked_grounded nav evs w :
  known_world w ->
  filter (fun r => negb (googleSearch r)) (asked (run nav evs w)) =
  filter (fun r => negb (googleSearch r)) (asked w).
Proof.
  revert w. induction evs as [|ev evs IH]; intros w K; [reflexivity|].
  rewrite run_cons. destruct (step_known nav ev K) as (K' & _ & new & E & G).
  rewrite IH by assumption. rewrite E, filter_app.
  assert (N : filter (fun r => negb (googleSearch r)) new = []).
  { clear E. induction G as [|r new Hr _ IHn]; [reflexivity|].
    cbn. now rewrite Hr. }
  rewrite N. apply app_nil_r.
Qed.

Lemma run_asked_extends nav evs w :
  known_world w ->
  exists new, asked (run nav evs w) = asked w ++ new
              /\ Forall (fun r => googleSearch r = true) new.
Proof.
  revert w. induction evs as [|ev evs IH]; intros w K.
  - exists []. rewrite app_nil_r. split; [reflexivity|constructor].
  - rewrite run_cons.
    destruct (step_known nav ev K) as (K' & _ & new & E & G).
    destruct (IH _ K') as (new' & E' & G').
    exists (new ++ new'). rewrite E', E, app_assoc. split; [reflexivity|].
    apply Forall_app. auto.
Qed.

(** After activation the news request is never made again: every request an
    event adds to the log is a grounded one (weather or search), so the log
    never holds more than one ungrounded request, and an ungrounded request
    in it is the news request of the startup effect. *)
Theorem news_not_requested_again nav now b evs :
  let start := asked (mount nav now b) in
  let log := asked (run nav evs (mount nav now b)) in
  (exists later, log = start ++ later
                 /\ Forall (fun r => googleSearch r = true) later)
  /\ List.length (filter (fun r => negb (googleSearch r)) log) <= 1
  /\ Forall (fun r => r = newsRequest)
            (filter (fun r => negb (googleSearch r)) log).
Proof.
  intros start log. split.
  - apply run_asked_extends, mount_known.
  - unfold log. rewrite run_asked_grounded by apply mount_known.
    destruct nav as [[|] [|]]; cbn; split; auto.
Qed.

(* ----------------------------------------------------------------- *)
(** *** The live intervals, exactly *)

Lemma rerender_exact p w :
  timers_for p w ->
  (mounted w = true ->
   map snd (timers w) = clockTick :: (if p then [progressTick] else [])) ->
  timers_exact (rerender p w).
Proof.
  intros H X. unfold timers_exact, rerender.
  destruct (mounted w) eqn:Hm; simpl; [|intros E; congruence].
  specialize (X eq_refl).
  destruct (Bool.eqb p (isPlaying (hud w))) eqn:Ep; simpl.
  { apply Bool.eqb_prop in Ep. subst p. intros _. exact X. }
  unfold timers_for in H. rewrite Hm in H. destruct H as (c & Hc & Hlt & H).
  destruct p, (isPlaying (hud w)) eqn:Hp; try discriminate Ep.
  - destruct H as (q & Hq & Hqlt & Hne & Htm).
    destruct (map_fst_two _ Htm) as (f & g & El).
    rewrite El in X. cbn in X. injection X as -> ->.
    unfold runEffect, runCleanup, progressEffect.
    rewrite Hq. simpl. rewrite Hp. simpl. rewrite Hp, El. simpl.
    destruct (Nat.eqb_spec c q); [congruence|]. rewrite Nat.eqb_refl.
    reflexivity.
  - destruct H as (Hq & Htm).
    unfold runEffect, runCleanup, progressEffect.
    rewrite Hq. simpl. rewrite Hp. simpl. rewrite Hp.
    intros _. rewrite map_app, X. reflexivity.
Qed.

Lemma step_exact nav ev w :
  timers_owned w -> timers_exact w -> timers_exact (step nav ev w).
Proof.
  intros O X. unfold step.
  destruct ev as [now|i r|i o|i|ty reading|v|key| | | | |];
    try (match goal with
         | |- timers_exact (rerender _ (dispatch _ ?e _)) =>
             destruct (@dispatch_timers nav e w) as (E1 & E2 & E3 & E4);
             [discriminate|];
             apply rerender_exact;
             [apply timers_for_fields with (w := w); assumption
             |rewrite E1, E2; exact X]
         end).
  cbn [dispatch]. destruct (mounted w) eqn:Hm.
  - intros E. unfold rerender in E.
    cbn [unmount mounted andb] in E. discriminate E.
  - rewrite rerender_same by reflexivity. intros E. congruence.
Qed.

Lemma run_exact nav evs w :
  timers_owned w -> timers_exact w ->
  timers_owned (run nav evs w) /\ timers_exact (run nav evs w).
Proof.
  revert w. induction evs as [|ev evs IH]; intros w O X; [auto|].
  rewrite run_cons. apply IH; [now apply step_owned|now apply step_exact].
Qed.

Lemma mount_exact nav now b : timers_exact (mount nav now b).
Proof. destruct nav as [[|] [|]]; intros _; reflexivity. Qed.

Lemma run_interval_callbacks nav now b evs :
  let w := run nav evs (mount nav now b) in
  map snd (timers w) =
  if mounted w
  then clockTick :: (if isPlaying (hud w) then [progressTick] else [])
  else [].
Proof.
  intros w.
  destruct (@run_exact nav evs _ (mount_owned nav now b) (mount_exact nav now b))
    as [O X].
  fold w in O, X. destruct (mounted w) eqn:Hm.
  - now apply X.
  - unfold timers_owned, timers_for in O. rewrite Hm in O. now rewrite O.
Qed.

(** However often playback was toggled or skipped, the live intervals are
    the clock's and, exactly while playing, one progress interval, under
    distinct handles; once the component is deactivated there is none. *)
Theorem live_intervals nav now b evs :
  let w := run nav evs (mount nav now b) in
  map snd (timers w) =
    (if mounted w
     then clockTick :: (if isPlaying (hud w) then [progressTick] else [])
     else [])
  /\ NoDup (map fst (timers w)).
Proof.
  intros w. split; [apply run_interval_callbacks|].
  pose proof (@run_owned nav evs _ (mount_owned nav now b)) as O.
  fold w in O. unfold timers_owned, timers_for in O.
  destruct (mounted w).
  - destruct O as (c & _ & _ & O). destruct (isPlaying (hud w)).
    + destruct O as (q & _ & _ & Hne & ->).
      constructor; [intros [H|[]]; congruence|].
      constructor; [intros []|constructor].
    + destruct O as (_ & ->). constructor; [intros []|constructor].
  - rewrite O. constructor.
Qed.

Lemma fold_callbacks now (ts : list (nat * Callback)) h :
  fold_left (fun h t => snd t now h) ts h =
  fold_left (fun h (cb : Callback) => cb now h) (map snd ts) h.
Proof.
  revert h. induction ts as [|t ts IH]; intros h; [reflexivity|].
  cbn [fold_left map]. apply IH.
Qed.

(** One second on the clock: the time becomes the reading of the tick and,
    while playing, the progress advances by one step of the 0..99 scale
    (wrapping from 99 to 0); while paused the progress stays, and after
    deactivation nothing changes. *)
Theorem tick_advances_once nav now b evs t :
  let w := run nav evs (mount nav now b) in
  hud (step nav (Tick t) w) =
  if mounted w
  then if isPlaying (hud w)
       then setTrackProgress (fun prev => (prev + 1) mod 100)
              (setTime (put t) (hud w))
       else setTime (put t) (hud w)
  else hud w.
Proof.
  intros w. rewrite hud_step. cbn [dispatch fire hud with_hud].
  rewrite fold_callbacks. unfold w. rewrite run_interval_callbacks. fold w.
  destruct (mounted w); [|reflexivity].
  destruct (isPlaying (hud w)); reflexivity.
Qed.

(* ----------------------------------------------------------------- *)
(** *** Slots that nothing pending writes *)

Section Frame.

Variable A : Type.
Variable proj : Hud -> A.
Variable nav : Navigator.
Hypothesis handlers : handlers_keep proj nav.

Lemma keeps_proj_updates p :
  keeps proj p -> forall h, proj (updates p h) = proj h.
Proof.
  induction 1 as [|f k Hf _ IH| |]; intros h; simpl; try reflexivity.
  now rewrite IH, Hf.
Qed.

Lemma keeps_proj_suspension p :
  keeps proj p -> Forall (task_keeps proj) (suspension p).
Proof.
  induction 1; simpl; auto; repeat constructor; auto.
Qed.

Lemma exec_quiet p w :
  keeps proj p -> quiet proj w ->
  quiet proj (exec p w) /\ proj (hud (exec p w)) = proj (hud w).
Proof.
  intros Hp (Ht & Hc & Hl). rewrite exec_eq. unfold quiet; simpl.
  repeat split; auto.
  - apply Forall_app; split; [assumption|now apply keeps_proj_suspension].
  - now apply keeps_proj_updates.
Qed.

Lemma settle_quiet p i w :
  keeps proj p -> quiet proj w ->
  quiet proj (exec p (settled i w))
  /\ proj (hud (exec p (settled i w))) = proj (hud w).
Proof.
  intros Hp (Ht & Hc & Hl).
  apply (@exec_quiet p (settled i w) Hp).
  unfold quiet; simpl; repeat split; auto using Forall_remove_at.
Qed.

Lemma runCleanup_quiet e w :
  quiet proj w -> quiet proj (runCleanup e w).
Proof.
  intros (Ht & Hc & Hl). unfold runCleanup.
  destruct (cleanups w e) as [[[id|]]|]; unfold quiet; simpl;
    repeat split; auto.
  rewrite Forall_forall in *. intros t Hin. apply filter_In in Hin.
  now apply Hc.
Qed.

Lemma rerender_quiet p w : quiet proj w -> quiet proj (rerender p w).
Proof.
  intros H. unfold rerender. destruct (_ && _); [|assumption].
  destruct (runCleanup_quiet ProgressEffect H) as (Ht & Hc & Hl).
  unfold runEffect, progressEffect.
  destruct (isPlaying (hud (runCleanup ProgressEffect w)));
    unfold quiet; simpl; repeat split; auto.
  apply Forall_app; split; [assumption|].
  constructor; [|constructor]. apply handlers.
Qed.

Lemma fold_callbacks_quiet now (ts : list (nat * Callback)) :
  Forall (fun t => forall now h, proj (snd t now h) = proj h) ts ->
  forall h, proj (fold_left (fun h t => snd t now h) ts h) = proj h.
Proof.
  induction 1 as [|t ts Ht _ IH]; intros h; simpl; [reflexivity|].
  now rewrite IH, Ht.
Qed.

Lemma fold_listeners_quiet ty reading (ls : list (BatteryEventType * Listener)) :
  Forall (fun l => forall b h, proj (snd l b h) = proj h) ls ->
  forall h,
    proj (fold_left (fun h l => if BatteryEventType_eqb (fst l) ty
                                then snd l reading h else h) ls h) = proj h.
Proof.
  induction 1 as [|l ls Hl _ IH]; intros h; simpl; [reflexivity|].
  rewrite IH. destruct (BatteryEventType_eqb (fst l) ty); [apply Hl|reflexivity].
Qed.

Lemma dispatch_quiet ev w :
  quiet proj w ->
  quiet proj (dispatch nav ev w)
  /\ proj (hud (dispatch nav ev w)) = proj (hud w).
Proof.
  intros H. pose proof H as (Ht & Hc & Hl).
  destruct handlers as (HW & HS & HI & HH & HT & HN & _).
  destruct ev as [now|i r|i o|i|ty reading|v|key| | | | |];
    cbn [dispatch].
  - split; [exact H|]. now apply fold_callbacks_quiet.
  - destruct (nth_error (tasks w) i) as [[success error|?|]|] eqn:E; auto.
    pose proof (proj1 (Forall_forall _ _) Ht _ (nth_error_In _ _ E)) as [Ks Ke].
    apply settle_quiet; [destruct r; auto|exact H].
  - destruct (nth_error (tasks w) i) as [[?|req fulfilled rejected|]|] eqn:E;
      auto.
    pose proof (proj1 (Forall_forall _ _) Ht _ (nth_error_In _ _ E)) as [Ks Ke].
    apply settle_quiet; [destruct o; auto|exact H].
  - destruct (nth_error (tasks w) i) as [[?|?|]|] eqn:E; auto.
    pose proof (proj1 (Forall_forall _ _) Ht _ (nth_error_In _ _ E)) as Kb.
    cbn in Kb. unfold battery_then, addEventListener, quiet; simpl.
    repeat split; auto using Forall_remove_at.
    rewrite <- app_assoc. apply Forall_app; split; [assumption|].
    simpl. constructor; [exact Kb|]. constructor; [exact Kb|constructor].
  - unfold notify. split; [exact H|]. cbn [hud with_hud].
    now apply fold_listeners_quiet.
  - destruct (mounted w); [split; [exact H|apply HI]|auto].
  - destruct (mounted w); [now apply exec_quiet|auto].
  - destruct (mounted w); [split; [exact H|apply HH]|auto].
  - destruct (mounted w); [now apply exec_quiet|auto].
  - destruct (mounted w); [split; [exact H|apply HT]|auto].
  - destruct (mounted w); [split; [exact H|apply HN]|auto].
  - destruct (mounted w); auto.
    destruct (unmount_core w) as (-> & _ & _). split; [|reflexivity].
    exact (runCleanup_quiet StartupEffect
             (runCleanup_quiet BatteryEffect
                (runCleanup_quiet ProgressEffect
                   (runCleanup_quiet ClockEffect H)))).
Qed.

Lemma run_quiet evs w :
  quiet proj w -> proj (hud (run nav evs w)) = proj (hud w).
Proof.
  revert w. induction evs as [|ev evs IH]; intros w H; [reflexivity|].
  rewrite run_cons. destruct (dispatch_quiet ev H) as [H1 H2].
  rewrite IH by (unfold step; now apply rerender_quiet).
  now rewrite hud_step.
Qed.

End Frame.

Lemma fetchWeather_then_keeps_proj {A} (proj : Hud -> A) :
  (forall f h, proj (setWeather f h) = proj h) ->
  forall r, keeps proj (fetchWeather_then r).
Proof.
  intros Hw r. unfold fetchWeather_then. destruct (text r) as [t|]; [|constructor].
  destruct (truthy t); [|constructor]. cbv zeta.
  destruct (3 <=? _); (constructor; [intros h; apply Hw|constructor]).
Qed.

Lemma fetchWeather_keeps_proj {A} (proj : Hud -> A) nav :
  (forall f h, proj (setWeather f h) = proj h) -> keeps proj (fetchWeather nav).
Proof.
  intros Hw. unfold fetchWeather. destruct (negb _); constructor.
  - intros c. constructor; [now apply fetchWeather_then_keeps_proj|].
    constructor; [intros h; apply Hw|constructor].
  - intros e. constructor; [intros h; apply Hw|constructor].
Qed.

Lemma fetchNews_then_keeps_proj {A} (proj : Hud -> A) :
  (forall f h, proj (setNewsHeadlines f h) = proj h) ->
  forall r, keeps proj (fetchNews_then r).
Proof.
  intros Hn r. unfold fetchNews_then. destruct (text r) as [t|]; [|constructor].
  destruct (truthy t); [|constructor].
  constructor; [intros h; apply Hn|constructor].
Qed.

Lemma handleSearch_keeps_proj {A} (proj : Hud -> A) :
  (forall f h, proj (setIsSearching f h) = proj h) ->
  (forall f h, proj (setSearchResult f h) = proj h) ->
  (forall f h, proj (setGroundingUrls f h) = proj h) ->
  forall key h, keeps proj (handleSearch key h).
Proof.
  intros H1 H2 H3 key h. unfold handleSearch. destruct (_ && _); [|constructor].
  constructor; [intros x; apply H1|].
  constructor; [intros x; apply H2|].
  constructor; [intros x; apply H3|].
  constructor.
  - intros r. unfold handleSearch_then.
    constructor; [intros x; apply H2|].
    destruct (groundingChunks r);
      [constructor; [intros x; apply H3|]|];
      (constructor; [intros x; apply H1|constructor]).
  - constructor; [intros x; apply H2|].
    constructor; [intros x; apply H1|constructor].
Qed.

(** Without the battery capability the battery slot keeps its default,
    100 and charging, through every event, battery events included. *)
Theorem battery_default_without_capability nav now b evs :
  has_getBattery nav = false ->
  battery (hud (run nav evs (mount nav now b))) =
  {| level := 100%Q; charging := true |}.
Proof.
  intros Hb. rewrite (@run_quiet _ battery nav).
  - destruct nav as [[|] [|]]; reflexivity.
  - unfold handlers_keep. repeat split; auto.
    + now apply fetchWeather_keeps_proj.
    + now apply handleSearch_keeps_proj.
  - destruct nav as [[|] [|]]; try discriminate Hb;
      unfold quiet; cbn -[fetchNews_then fetchWeather_then];
      repeat split; repeat constructor;
      try (now apply fetchNews_then_keeps_proj);
      try (now apply fetchWeather_then_keeps_proj).
Qed.

Lemma battery_default_witness :
  battery (hud (run (mkNavigator false true)
                    [BatteryReady 0;
                     BatteryEvent levelchange (mkBatteryManager (1 # 4) false)]
                    startWorld)) =
  {| level := 100%Q; charging := true |}.
Proof.
  exact (@battery_default_without_capability
           (mkNavigator false true) 0 (mkBatteryManager 1 true)
           [BatteryReady 0;
            BatteryEvent levelchange (mkBatteryManager (1 # 4) false)]
           eq_refl).
Defined.

(** Without the geolocation capability the weather reading never leaves its
    initial scanning state: neither activation nor any rescan writes it. *)
Theorem weather_scanning_without_geolocation nav now b evs :
  has_geolocation nav = false ->
  weather (hud (run nav evs (mount nav now b))) =
  {| temp := lit "--"; condition := lit "SCANNING...";
     location := lit "UNKNOWN SECTOR" |}.
Proof.
  intros Hg. rewrite (@run_quiet _ weather nav).
  - destruct nav as [[|] [|]]; reflexivity.
  - unfold handlers_keep. repeat split; auto.
    + unfold fetchWeather. rewrite Hg. constructor.
    + now apply handleSearch_keeps_proj.
  - destruct nav as [[|] [|]]; try discriminate Hg;
      unfold quiet; cbn -[fetchNews_then];
      repeat split; repeat constructor;
      try (now apply fetchNews_then_keeps_proj).
Qed.

Lemma weather_scanning_witness :
  weather (hud (run (mkNavigator true false) [Rescan; Tick 1000; Rescan]
                    (mount (mkNavigator true false) 0 (mkBatteryManager 1 true)))) =
  {| temp := lit "--"; condition := lit "SCANNING...";
     location := lit "UNKNOWN SECTOR" |}.
Proof.
  exact (@weather_scanning_without_geolocation
           (mkNavigator true false) 0 (mkBatteryManager 1 true)
           [Rescan; Tick 1000; Rescan] eq_refl).
Defined.

(* ----------------------------------------------------------------- *)
(** *** A pending flag has a request behind it *)

Lemma Exists_remove_at {A} (P : A -> Prop) i l y :
  Exists P l -> nth_error l i = Some y -> ~ P y -> Exists P (remove_at i l).
Proof.
  revert i. induction l as [|a l IH]; intros i Hex Hi Hy.
  - inversion Hex.
  - destruct i as [|i].
    + cbn in Hi. injection Hi as ->. unfold remove_at; cbn.
      inversion Hex; subst; [contradiction|assumption].
    + cbn in Hi. change (remove_at (S i) (a :: l)) with (a :: remove_at i l).
      inversion Hex; subst; [now left|right; eauto].
Qed.

Lemma news_not_search : ~ is_search_task newsTask.
Proof. intros [q E]. discriminate E. Qed.

Lemma weather_not_search c :
  ~ is_search_task (AwaitContent (weatherRequest c) fetchWeather_then
                                 fetchWeather_catch).
Proof.
  intros [q E]. injection E as _ E _.
  apply (f_equal (fun k => k (mkResponse None None))) in E. discriminate E.
Qed.

Lemma step_pending nav ev w :
  known_world w ->
  (isSearching (hud w) = true -> Exists is_search_task (tasks w)) ->
  isSearching (hud (step nav ev w)) = true ->
  Exists is_search_task (tasks (step nav ev w)).
Proof.
  intros K I. rewrite hud_step, tasks_step.
  pose proof K as (Kt & _ & _).
  destruct (dispatch_known nav ev K) as (_ & W & _).
  destruct ev as [now|i r|i o|i|ty reading|v|key| | | | |];
    cbn [dispatch] in *;
    try (destruct (@event_writes_slots _ _ _ W SlotIsSearching) as [E|E];
         [cbn [same_slot] in E; rewrite E; clear E W|discriminate E]).
  - exact I.
  - destruct (nth_error (tasks w) i) as [[success error|?|]|] eqn:E; auto.
    rewrite exec_eq. cbn [tasks settled with_tasks]. intros S.
    apply Exists_app. left.
    apply Exists_remove_at with (y := AwaitPosition success error); auto.
    intros [q Q]. discriminate Q.
  - destruct (nth_error (tasks w) i) as [[?|req fulfilled rejected|]|] eqn:E;
      auto.
    pose proof (proj1 (Forall_forall _ _) Kt _ (nth_error_In _ _ E)) as Kn.
    rewrite exec_eq. cbn [hud tasks settled with_tasks].
    inversion Kn; subst.
    + fold (newsSettle o). destruct (newsSettle_writes o (hud w)) as [f ->].
      cbn [isSearching setNewsHeadlines]. intros S. apply Exists_app. left.
      eapply Exists_remove_at; eauto using news_not_search.
    + fold (weatherSettle o). destruct (weatherSettle_writes o (hud w)) as [f ->].
      cbn [isSearching setWeather]. intros S. apply Exists_app. left.
      eapply Exists_remove_at; eauto using weather_not_search.
    + fold (searchSettle o). rewrite searchSettle_writes.
      intros S. discriminate S.
  - destruct (nth_error (tasks w) i) as [[?|?|]|] eqn:E; auto.
    unfold battery_then, addEventListener.
    cbn [tasks settled with_tasks with_listeners with_hud]. intros S.
    apply Exists_remove_at with (y := AwaitBattery); auto.
    intros [q Q]. discriminate Q.
  - exact I.
  - destruct (mounted w); exact I.
  - destruct (mounted w); [|exact I]. rewrite exec_eq. cbn [hud tasks].
    unfold handleSearch. destruct (_ && _); cbn [updates suspension].
    + intros _. apply Exists_app. right. constructor. now eexists.
    + rewrite app_nil_r. exact I.
  - destruct (mounted w); exact I.
  - destruct (mounted w); [|exact I]. rewrite exec_eq. cbn [tasks].
    intros S. apply Exists_app. left. now apply I.
  - destruct (mounted w); exact I.
  - destruct (mounted w); exact I.
  - destruct (mounted w); [|exact I].
    destruct (unmount_core w) as (_ & _ & ->). exact I.
Qed.

(** The querying indicator is never left on with nothing to wait for:
    whenever a search is flagged as pending, a search request is still in
    flight. *)
Theorem pending_has_request_in_flight nav now b evs :
  let w := run nav evs (mount nav now b) in
  isSearching (hud w) = false
  \/ exists query, In (searchTask query) (tasks w).
Proof.
  intros w.
  assert (I : forall evs w0, known_world w0 ->
                (isSearching (hud w0) = true -> Exists is_search_task (tasks w0)) ->
                isSearching (hud (run nav evs w0)) = true ->
                Exists is_search_task (tasks (run nav evs w0))).
  { clear. intros evs. induction evs as [|ev evs IH]; intros w0 K I; [exact I|].
    rewrite run_cons. apply IH; [now apply step_known|].
    now apply step_pending. }
  destruct (isSearching (hud w)) eqn:E; [right|now left].
  apply I in E.
  - apply Exists_exists in E. destruct E as (t & Hin & q & ->). eauto.
  - apply mount_known.
  - destruct nav as [[|] [|]]; intros S; discriminate S.
Qed.

(* ----------------------------------------------------------------- *)
(** *** Submitting a search *)

Lemma truthy_trim_iff q : truthy (trim q) = true <-> ~ blank q.
Proof.
  rewrite <- trim_nil_iff_blank. destruct (trim q); cbn; split; congruence.
Qed.

(** A key other than Enter, or Enter on a query that is empty or all white
    space, does nothing at all: no request, no pending task, no write. *)
Theorem search_guard nav key w :
  jsstr_eqb key (lit "Enter") = false \/ blank (searchQuery (hud w)) ->
  step nav (KeyDown key) w = w.
Proof.
  intros G.
  assert (E : handleSearch key (hud w) = Done).
  { unfold handleSearch. destruct G as [G|G].
    - now rewrite G.
    - apply trim_nil_iff_blank in G. rewrite G. cbn. now rewrite andb_false_r. }
  assert (D : dispatch nav (KeyDown key) w = w).
  { cbn [dispatch]. rewrite E. now destruct (mounted w). }
  rewrite step_dispatch; rewrite D; reflexivity.
Qed.

Lemma search_guard_witness :
  step (mkNavigator false true) (KeyDown (lit "Enter"))
       (step (mkNavigator false true) (Input (lit "   ")) startWorld) =
  step (mkNavigator false true) (Input (lit "   ")) startWorld.
Proof.
  apply (@search_guard (mkNavigator false true) (lit "Enter")
           (step (mkNavigator false true) (Input (lit "   ")) startWorld)).
  right. repeat constructor.
Defined.

Lemma submission_world nav w q :
  mounted w = true -> ~ blank q ->
  let w' := run nav [Input q; KeyDown (lit "Enter")] w in
  isSearching (hud w') = true
  /\ searchResult (hud w') = None
  /\ groundingUrls (hud w') = []
  /\ newsHeadlines (hud w') = newsHeadlines (hud w)
  /\ asked w' = asked w ++ [mkRequest gemini q true]
  /\ tasks w' = tasks w ++ [searchTask q].
Proof.
  intros Hm Hq w'. apply truthy_trim_iff in Hq. unfold w'.
  rewrite run_cons, step_Input by assumption.
  rewrite run_cons, step_Enter by (simpl; assumption).
  rewrite run_nil. cbn. auto 10.
Qed.

(** Enter on a query that is not blank clears the citations and issues at
    most one request.  Whenever it leaves the session pending, the pane shows
    the querying indicator, the earlier result is hidden, and exactly one
    grounded request carrying the query as typed (not trimmed) has been
    issued and is the one now pending. *)
Theorem search_submission nav w q :
  mounted w = true -> ~ blank q ->
  let w' := run nav [Input q; KeyDown (lit "Enter")] w in
  (asked w' = asked w \/ asked w' = asked w ++ [mkRequest gemini q true])
  /\ groundingUrls (hud w') = []
  /\ (isSearching (hud w') = true ->
      feedPane (hud w') = QueryingIndicator
      /\ searchResult (hud w') = None
      /\ asked w' = asked w ++ [mkRequest gemini q true]
      /\ tasks w' = tasks w ++ [searchTask q]).
Proof.
  intros Hm Hq w'.
  destruct (@submission_world nav w q Hm Hq) as (Hs & Hr & Hu & _ & Ha & Ht).
  fold w' in Hs, Hr, Hu, Ha, Ht. repeat split; auto.
  unfold feedPane. now rewrite Hs.
Qed.

Lemma search_submission_witness :
  let w' := run (mkNavigator false true)
                [Input (lit " night city "); KeyDown (lit "Enter")] startWorld in
  (asked w' = asked startWorld
   \/ asked w' = asked startWorld ++ [mkRequest gemini (lit " night city ") true])
  /\ groundingUrls (hud w') = []
  /\ (isSearching (hud w') = true ->
      feedPane (hud w') = QueryingIndicator
      /\ searchResult (hud w') = None
      /\ asked w' = asked startWorld ++ [mkRequest gemini (lit " night city ") true]
      /\ tasks w' = tasks startWorld ++ [searchTask (lit " night city ")]).
Proof.
  refine (@search_submission (mkNavigator false true) startWorld
            (lit " night city ") eq_refl _).
  intros B. inversion B as [|c s Hc Hs]; subst.
  inversion Hs as [|c' s' Hc' _]; subst. discriminate Hc'.
Defined.

(** A search that runs alone from submission to settlement ends in the
    search-result view when the outcome has text (the fixed literal on
    failure), with the link block of the citations that outcome carries;
    when the response has no text the pane is back on the headlines. *)
Theorem search_completion nav w q o :
  mounted w = true -> ~ blank q ->
  let w' := run nav [Input q; KeyDown (lit "Enter");
                     ContentSettled (List.length (tasks w)) o] w in
  feedPane (hud w') =
    match textAfter o with
    | Some (c :: t) => SearchResultView (c :: t) (linkBlock (urlsAfter o []))
    | _ => headlineView (hud w)
    end
  /\ tasks w' = tasks w
  /\ (o = ServiceError ->
      feedPane (hud w') =
      SearchResultView (lit "CONNECTION INTERRUPTED. TARGET NOT FOUND.") None).
Proof.
  intros Hm Hq w'.
  destruct (@submission_world nav w q Hm Hq) as (_ & _ & Hu & Hn & _ & Ht).
  set (w2 := run nav [Input q; KeyDown (lit "Enter")] w) in *.
  assert (E : w' = step nav (ContentSettled (List.length (tasks w)) o) w2)
    by reflexivity.
  clearbody w2 w'.
  assert (Hi : nth_error (tasks w2) (List.length (tasks w)) = Some (searchTask q))
    by (rewrite Ht; apply nth_error_last).
  assert (Hh : hud w' = updates (searchSettle o) (hud w2)).
  { rewrite E. unfold searchTask in Hi. erewrite hud_content by exact Hi.
    reflexivity. }
  assert (F : feedPane (hud w') =
              match textAfter o with
              | Some (c :: t) => SearchResultView (c :: t) (linkBlock (urlsAfter o []))
              | _ => headlineView (hud w)
              end).
  { rewrite Hh, searchSettle_writes, Hu. unfold feedPane, headlineView. cbn.
    rewrite Hn. destruct (textAfter o) as [[|c t]|]; cbn; auto.
    destruct (urlsAfter o []); reflexivity. }
  split; [exact F|]. split.
  - rewrite E, tasks_step. unfold searchTask in Hi.
    erewrite dispatch_content by exact Hi. rewrite exec_eq.
    cbn [tasks settled with_tasks]. fold (searchSettle o).
    destruct (settle_ends o) as (_ & _ & -> & _).
    rewrite app_nil_r, Ht. apply remove_at_last.
  - intros ->. rewrite F. reflexivity.
Qed.

Lemma search_completion_witness :
  feedPane (hud (run (mkNavigator false true)
                     [Input (lit "night city"); KeyDown (lit "Enter");
                      ContentSettled 2 ServiceError]
                     startWorld)) =
  SearchResultView (lit "CONNECTION INTERRUPTED. TARGET NOT FOUND.") None.
Proof.
  refine (proj2 (proj2 (@search_completion (mkNavigator false true) startWorld
                          (lit "night city") ServiceError eq_refl _)) eq_refl).
  intros B. inversion B as [|c s Hc Hs]; subst. discriminate Hc.
Defined.

(* ----------------------------------------------------------------- *)
(** *** Skipping tracks *)

Lemma step_NextTrack nav w :
  mounted w = true ->
  hud (step nav NextTrack w) = nextTrack (hud w)
  /\ mounted (step nav NextTrack w) = true.
Proof.
  intros Hm. unfold step.
  destruct (rerender_frame (isPlaying (hud w)) (dispatch nav NextTrack w))
    as (-> & -> & _).
  cbn [dispatch]. rewrite Hm. auto.
Qed.

(** Skipping moves to the next track of the playlist, resets the progress
    and starts playback, so the progress interval is live afterwards; four
    skips come back to the track they started from. *)
Theorem next_track_cycles nav now b evs :
  let w := run nav evs (mount nav now b) in
  mounted w = true ->
  let w1 := step nav NextTrack w in
  currentTrackIndex (hud w1) = (currentTrackIndex (hud w) + 1) mod 4
  /\ trackProgress (hud w1) = 0
  /\ isPlaying (hud w1) = true
  /\ map snd (timers w1) = [clockTick; progressTick]
  /\ currentTrackIndex
       (hud (run nav [NextTrack; NextTrack; NextTrack; NextTrack] w)) =
     currentTrackIndex (hud w).
Proof.
  intros w Hm w1.
  destruct (@step_NextTrack nav w Hm) as [H1 M1].
  fold w1 in H1, M1.
  assert (T : map snd (timers w1) = [clockTick; progressTick]).
  { pose proof (run_interval_callbacks nav now b (evs ++ [NextTrack])) as L.
    cbv zeta in L. rewrite run_app in L. fold w in L.
    change (run nav [NextTrack] w) with w1 in L.
    rewrite M1, H1 in L. exact L. }
  repeat split; try (rewrite H1; reflexivity); [exact T|].
  destruct (playback_range_run nav now b evs) as (_ & Hi).
  fold w in Hi.
  rewrite !run_cons, run_nil.
  destruct (@step_NextTrack nav (step nav NextTrack w) M1) as [H2 M2].
  destruct (@step_NextTrack nav _ M2) as [H3 M3].
  destruct (@step_NextTrack nav _ M3) as [H4 _].
  fold w1 in H2, H3, H4, M2, M3 |- *.
  rewrite H4, H3, H2, H1. unfold nextTrack, put.
  cbn [currentTrackIndex setIsPlaying setTrackProgress setCurrentTrackIndex].
  change (List.length PLAYLIST) with 4 in *.
  destruct (currentTrackIndex (hud w)) as [|[|[|[|n]]]]; try reflexivity. lia.
Qed.

Lemma next_track_witness :
  currentTrackIndex
    (hud (run (mkNavigator false true)
              [NextTrack; NextTrack; NextTrack; NextTrack]
              (run (mkNavigator false true) [NextTrack; TogglePlay] startWorld))) = 1.
Proof.
  exact (proj2 (proj2 (proj2 (proj2
           (@next_track_cycles (mkNavigator false true) 0
              (mkBatteryManager 1 true) [NextTrack; TogglePlay] eq_refl))))).
Defined.

(* ----------------------------------------------------------------- *)
(** *** Labels of the render function *)

Lemma two_digits n :
  n < 100 ->
  padStart 2 zero (toString n) =
  [N.of_nat (48 + n / 10); N.of_nat (48 + n mod 10)].
Proof.
  intros H.
  assert (A : forallb (fun n => jsstr_eqb (padStart 2 zero (toString n))
                                  [N.of_nat (48 + n / 10); N.of_nat (48 + n mod 10)])
                      (seq 0 100) = true) by (vm_compute; reflexivity).
  rewrite forallb_forall in A. apply jsstr_eqb_eq, A, in_seq. lia.
Qed.

(** The elapsed label of the player is always [00:] followed by exactly two
    decimal digits that spell the progress. *)
Theorem progress_label_two_digits nav now b evs :
  let h := hud (run nav evs (mount nav now b)) in
  progressLabel h =
    lit "00:" ++ [N.of_nat (48 + trackProgress h / 10);
                  N.of_nat (48 + trackProgress h mod 10)]
  /\ List.length (progressLabel h) = 5.
Proof.
  intros h. destruct (playback_range_run nav now b evs) as (Hp & _).
  fold h in Hp. unfold progressLabel. rewrite two_digits by assumption.
  split; reflexivity.
Qed.

(** A date label is the weekday name of the table, a space, and the day of
    the month on two digits; different days never share a label. *)
Theorem formatDate_injective day date day' date' :
  day < 7 -> date <= 31 -> day' < 7 -> date' <= 31 ->
  (formatDate day date =
   nth day days [] ++ lit " " ++ [N.of_nat (48 + date / 10);
                                  N.of_nat (48 + date mod 10)])
  /\ (formatDate day date = formatDate day' date' -> day = day' /\ date = date').
Proof.
  intros Hd Hn Hd' Hn'. split.
  - unfold formatDate. rewrite two_digits by lia.
    do 7 (destruct day as [|day]; [reflexivity|]). lia.
  - intros E.
    assert (A : forallb (fun d =>
                  forallb (fun n =>
                    forallb (fun d' =>
                      forallb (fun n' =>
                        implb (jsstr_eqb (formatDate d n) (formatDate d' n'))
                              ((d =? d') && (n =? n'))%nat)
                        (seq 0 32)) (seq 0 7)) (seq 0 32)) (seq 0 7) = true)
      by (vm_compute; reflexivity).
    assert (I1 : In day (seq 0 7)) by (apply in_seq; lia).
    assert (I2 : In date (seq 0 32)) by (apply in_seq; lia).
    assert (I3 : In day' (seq 0 7)) by (apply in_seq; lia).
    assert (I4 : In date' (seq 0 32)) by (apply in_seq; lia).
    rewrite forallb_forall in A. specialize (A day I1).
    rewrite forallb_forall in A. specialize (A date I2).
    rewrite forallb_forall in A. specialize (A day' I3).
    rewrite forallb_forall in A. specialize (A date' I4).
    apply jsstr_eqb_eq in E. rewrite E in A. cbn in A.
    apply andb_prop in A. destruct A as [A1 A2].
    apply Nat.eqb_eq in A1, A2. auto.
Qed.

Lemma formatDate_witness :
  formatDate 2 7 = lit "TUESDAY 07".
Proof.
  refine (proj1 (@formatDate_injective 2 7 2 7 _ _ _ _)); lia.
Defined.

Lemma removeFirst_app c a b :
  ~ In c a -> removeFirst c (a ++ c :: b) = a ++ b.
Proof.
  induction a as [|x a IH]; cbn; intros H.
  - now rewrite N.eqb_refl.
  - destruct (N.eqb_spec x c) as [->|_]; [tauto|]. rewrite IH by tauto.
    reflexivity.
Qed.

Lemma removeFirst_absent c s : ~ In c s -> removeFirst c s = s.
Proof.
  induction s as [|x s IH]; cbn; intros H; [reflexivity|].
  destruct (N.eqb_spec x c) as [->|_]; [tauto|]. now rewrite IH by tauto.
Qed.

(** The weather widget drops the first C of the temperature and appends a
    degree sign of its own: a temperature already written with its degree
    sign, as the prompt asks for, is shown with two; one with no C is shown
    whole. *)
Theorem temp_label_degree h a :
  ~ In letterC a ->
  (temp (weather h) = a ++ [degree; letterC] ->
   tempLabel h = a ++ [degree; degree])
  /\ (temp (weather h) = a -> tempLabel h = a ++ [degree]).
Proof.
  intros Ha. unfold tempLabel. split; intros ->.
  - assert (N : ~ In letterC (a ++ [degree])).
    { intros H. apply in_app_or in H. destruct H as [H|[H|[]]];
        [tauto|discriminate H]. }
    change (a ++ [degree; letterC]) with (a ++ [degree] ++ letterC :: []).
    rewrite app_assoc, removeFirst_app by exact N.
    now rewrite app_nil_r, <- app_assoc.
  - now rewrite removeFirst_absent.
Qed.

Lemma temp_label_witness :
  tempLabel
    (hud (run (mkNavigator false true)
              [Rescan; PositionSettled 2 (Located hereCoords);
               ContentSettled 2
                 (Fulfilled (mkResponse
                    (Some (lit "Tokyo | 15" ++ [degree] ++ lit "C | Rainy"))
                    None))]
              startWorld)) =
  lit "15" ++ [degree; degree].
Proof.
  refine (proj1 (@temp_label_degree
                   (hud (run (mkNavigator false true)
                             [Rescan; PositionSettled 2 (Located hereCoords);
                              ContentSettled 2
                                (Fulfilled (mkResponse
                                   (Some (lit "Tokyo | 15" ++ [degree]
                                          ++ lit "C | Rainy"))
                                   None))]
                             startWorld))
                   (lit "15") _) eq_refl).
  cbn. intros [H|[H|[]]]; discriminate H.
Defined.

(* ----------------------------------------------------------------- *)
(** *** Battery listeners are registered once *)

Lemma count_remove_at {A} (f : A -> bool) i l y :
  nth_error l i = Some y ->
  List.length (filter f (remove_at i l)) + (if f y then 1 else 0) =
  List.length (filter f l).
Proof.
  revert i. induction l as [|a l IH]; intros i Hi.
  - destruct i; discriminate Hi.
  - destruct i as [|i].
    + cbn in Hi. injection Hi as ->. unfold remove_at. cbn.
      destruct (f y); cbn; lia.
    + cbn in Hi. change (remove_at (S i) (a :: l)) with (a :: remove_at i l).
      specialize (IH i Hi). cbn. destruct (f a); cbn; lia.
Qed.

Lemma known_not_battery t :
  known_task t -> t <> AwaitBattery -> awaitsBattery t = false.
Proof. intros K N. destruct K; try reflexivity. congruence. Qed.

Lemma filter_nil_length {A} (l : list A) : List.length l = 0 -> l = [].
Proof. now destruct l. Qed.

Lemma settle_listeners_once p i w y :
  nth_error (tasks w) i = Some y -> awaitsBattery y = false ->
  filter awaitsBattery (suspension p) = [] ->
  listeners_once w -> listeners_once (exec p (settled i w)).
Proof.
  intros Hi Hy Hs J. rewrite exec_eq. unfold listeners_once.
  cbn [listeners tasks settled with_tasks].
  pose proof (count_remove_at awaitsBattery i (tasks w) Hi) as C.
  rewrite Hy, Nat.add_0_r in C.
  rewrite filter_app, Hs, app_nil_r.
  destruct J as [[L N]|[L N]]; [left|right]; split; auto.
  - now rewrite C.
  - apply filter_nil_length. now rewrite C, N.
Qed.

Lemma exec_listeners_once p w :
  filter awaitsBattery (suspension p) = [] ->
  listeners_once w -> listeners_once (exec p w).
Proof.
  intros Hs J. rewrite exec_eq. unfold listeners_once.
  cbn [listeners tasks]. now rewrite filter_app, Hs, app_nil_r.
Qed.

Lemma dispatch_listeners_once nav ev w :
  known_world w -> listeners_once w -> listeners_once (dispatch nav ev w).
Proof.
  intros K J. pose proof K as (Kt & _ & _).
  destruct ev as [now|i r|i o|i|ty reading|v|key| | | | |];
    cbn [dispatch]; try exact J; try (destruct (mounted w); exact J).
  - destruct (nth_error (tasks w) i) as [[success error|?|]|] eqn:E; auto.
    pose proof (proj1 (Forall_forall _ _) Kt _ (nth_error_In _ _ E)) as Kn.
    inversion Kn; subst.
    eapply settle_listeners_once; eauto. destruct r; reflexivity.
  - destruct (nth_error (tasks w) i) as [[?|req fulfilled rejected|]|] eqn:E;
      auto.
    pose proof (proj1 (Forall_forall _ _) Kt _ (nth_error_In _ _ E)) as Kn.
    destruct (settle_ends o) as ((W1 & _) & (N1 & _) & (S1 & _)).
    inversion Kn; subst; eapply settle_listeners_once; eauto;
      [fold (newsSettle o); now rewrite N1
      |fold (weatherSettle o); now rewrite W1
      |fold (searchSettle o); now rewrite S1].
  - destruct (nth_error (tasks w) i) as [[?|?|]|] eqn:E; auto.
    pose proof (count_remove_at awaitsBattery i (tasks w) E) as C. cbn in C.
    unfold battery_then, addEventListener, listeners_once.
    cbn [listeners tasks settled with_tasks with_listeners with_hud].
    destruct J as [[L N]|[L N]].
    + right. rewrite L. split; [reflexivity|].
      apply filter_nil_length. lia.
    + rewrite N in C. cbn in C. lia.
  - destruct (mounted w); [|exact J]. apply exec_listeners_once; [|exact J].
    unfold handleSearch. destruct (_ && _); reflexivity.
  - destruct (mounted w); [|exact J]. apply exec_listeners_once; [|exact J].
    unfold fetchWeather. destruct (negb _); reflexivity.
  - destruct (mounted w); [|exact J]. unfold listeners_once, unmount.
    cbn [listeners tasks].
    repeat match goal with
           | |- context [tasks (runCleanup ?e ?x)] =>
               destruct (runCleanup_core e x) as (_ & _ & ->)
           end.
    rewrite !runCleanup_listeners. exact J.
Qed.

Lemma run_listeners_once nav evs w :
  known_world w -> listeners_once w -> listeners_once (run nav evs w).
Proof.
  revert w. induction evs as [|ev evs IH]; intros w K J; [exact J|].
  rewrite run_cons. apply IH; [now apply step_known|].
  unfold step, listeners_once.
  destruct (rerender_frame (isPlaying (hud w)) (dispatch nav ev w))
    as (_ & _ & -> & _ & _ & ->).
  now apply dispatch_listeners_once.
Qed.

(** The battery listeners are registered at most once, one per kind of
    event, and a battery event registers none.  Before the battery manager
    has arrived a battery event leaves the battery slot as it was; afterwards
    an event of either kind refreshes the slot from the manager, so the
    charging flag is the manager's. *)
Theorem battery_events_refresh nav now b evs ty reading :
  let w := run nav evs (mount nav now b) in
  let w' := step nav (BatteryEvent ty reading) w in
  (listeners w = [] \/ map fst (listeners w) = [levelchange; chargingchange])
  /\ listeners w' = listeners w
  /\ match listeners w with
     | [] => battery (hud w') = battery (hud w)
     | _ :: _ => charging (battery (hud w')) = bat_charging reading
     end.
Proof.
  intros w w'.
  assert (J : listeners_once w).
  { apply run_listeners_once; [apply mount_known|].
    destruct nav as [[|] [|]]; left; cbn; auto. }
  unfold w'. rewrite hud_step, listeners_step.
  cbn [dispatch notify hud listeners with_hud].
  destruct J as [[L _]|[L _]]; rewrite L; [auto|].
  repeat split; [now right|]. destruct ty; reflexivity.
Qed.

(* ----------------------------------------------------------------- *)
(** *** The home action and a pending search *)


